(** * pxi/mux: the glob matcher [Match], its capture list [Vars] and the
    method dispatcher [Method.ServeHTTP], embedded from [mux.go].

    Go strings are byte strings.  They are Rocq [string]s at the interface
    and [list ascii] where the code indexes and slices them.  Go [int]
    cursors are [nat]: every cursor of [Match] stays between 0 and the
    length of its string plus one.  A run-time panic (index or slice bounds
    out of range) is an explicit outcome. *)

From Stdlib Require Import Ascii NArith Lia.
From Stdlib Require String.
From stdpp Require Import base list strings gmap sorting.

(** ** Byte strings *)

Definition bytes (s : string) : list ascii := String.list_ascii_of_string s.
Definition str (l : list ascii) : string := String.string_of_list_ascii l.

(** [s[lo:hi]]: panics ([None]) unless [lo <= hi <= len(s)]. *)
Definition slice (s : list ascii) (lo hi : nat) : option (list ascii) :=
  if (lo <=? hi) && (hi <=? length s) then Some (take (hi - lo) (drop lo s))
  else None.

(** [strings.IndexByte(s, c)]: index of the first [c] in [s]; [None] is
    Go's result -1. *)
Fixpoint IndexByte (s : list ascii) (c : ascii) : option nat :=
  match s with
  | [] => None
  | a :: r => if Ascii.eqb a c then Some 0 else S <$> IndexByte r c
  end.

(** ** unicode/utf8

    The width returned by [utf8.DecodeRuneInString], following the standard
    library's decoder: the class of the first byte gives the expected size
    and the range accepted for the second byte; any ill-formed or truncated
    sequence decodes as [RuneError] of width 1. *)

Definition locb : N := 0x80.
Definition hicb : N := 0xBF.

(** [first[s0]]: [None] for the one-byte classes (ASCII and invalid),
    otherwise the size and the accept range of the second byte. *)
Definition first (s0 : N) : option (nat * (N * N)) :=
  if (s0 <? 0xC2)%N then None
  else if (s0 <? 0xE0)%N then Some (2, (locb, hicb))
  else if (s0 =? 0xE0)%N then Some (3, (0xA0, hicb)%N)
  else if (s0 =? 0xED)%N then Some (3, (locb, 0x9F)%N)
  else if (s0 <? 0xF0)%N then Some (3, (locb, hicb))
  else if (s0 =? 0xF0)%N then Some (4, (0x90, hicb)%N)
  else if (s0 <? 0xF4)%N then Some (4, (locb, hicb))
  else if (s0 =? 0xF4)%N then Some (4, (locb, 0x8F)%N)
  else None.

Definition cont (lo hi : N) (b : ascii) : bool :=
  (lo <=? N_of_ascii b)%N && (N_of_ascii b <=? hi)%N.

Definition DecodeRuneInString_width (s : list ascii) : nat :=
  match s with
  | [] => 0
  | s0 :: _ =>
    match first (N_of_ascii s0) with
    | None => 1
    | Some (sz, (lo, hi)) =>
      if length s <? sz then 1 else
      match s with
      | _ :: s1 :: r =>
        if negb (cont lo hi s1) then 1
        else if sz <=? 2 then 2
        else match r with
             | s2 :: r' =>
               if negb (cont locb hicb s2) then 1
               else if sz <=? 3 then 3
               else match r' with
                    | s3 :: _ => if negb (cont locb hicb s3) then 1 else 4
                    | [] => 1
                    end
             | [] => 1
             end
      | _ => 1
      end
    end
  end.

(** A well-formed UTF-8 encoding of one code point (Unicode, table 3-7): a
    byte below 0x80, or a leading byte followed by exactly the continuation
    bytes its class asks for. *)
Definition well_formed (w : list ascii) : bool :=
  match w with
  | [] => false
  | [s0] => (N_of_ascii s0 <? 0x80)%N
  | s0 :: s1 :: r =>
    match first (N_of_ascii s0) with
    | None => false
    | Some (sz, (lo, hi)) =>
      (length w =? sz) && cont lo hi s1 && forallb (cont locb hicb) r
    end
  end.

(** ** Vars *)

Definition Vars := list (string * string).

(** [Vars.Set]: overwrite the first pair with this key in place, else
    append. *)
Fixpoint Vars_Set (vars : Vars) (key value : string) : Vars :=
  match vars with
  | [] => [(key, value)]
  | (k, v) :: rest =>
    if String.eqb k key then (key, value) :: rest
    else (k, v) :: Vars_Set rest key value
  end.

(** [Vars.Get]: the value of the first pair with this key, else the empty
    string. *)
Fixpoint Vars_Get (vars : Vars) (key : string) : string :=
  match vars with
  | [] => ""
  | (k, v) :: rest => if String.eqb k key then v else Vars_Get rest key
  end.

(** [Vars.Reset]: the slice is cut to length 0. *)
Definition Vars_Reset (vars : Vars) : Vars := take 0 vars.

(** ** Match *)

(** The local variables of [Match]. *)
Record cursor := Cursor {
  key : string;
  nx : nat;
  vx : nat;
  px : nat;
  tx : nat;
  nextPx : nat;
  nextTx : nat
}.

Definition init : cursor := Cursor "" 0 0 0 0 0 0.

(** What one turn of the [for] loop does. *)
Inductive outcome :=
| Continue (c : cursor) (vars : Vars)
| Return (b : bool) (vars : Vars)
| Panic.

(** What a call does; [OutOfFuel] is an artefact of the bounded loop and is
    shown never to occur. *)
Inductive result :=
| Returned (b : bool) (vars : Vars)
| Panicked
| OutOfFuel.

Section Match.
Variables pattern text : list ascii.

Definition isWild (a : ascii) : bool :=
  Ascii.eqb a "*"%char || Ascii.eqb a "{"%char.

(** [if px > 0 && pattern[px-1] == '}' { vars.Set(key, text[vx:tx]) }] *)
Definition finalize (c : cursor) (vars : Vars) : option Vars :=
  match px c with
  | 0 => Some vars
  | S i =>
    a ← pattern !! i;
    if Ascii.eqb a "}"%char then
      v ← slice text (vx c) (tx c); Some (Vars_Set vars (key c) (str v))
    else Some vars
  end.

(** Lines 73-82: resume from the retry point, or reset and fail. *)
Definition retry (c : cursor) (vars : Vars) : outcome :=
  if nextTx c <=? length text then
    match pattern !! nextPx c with
    | None => Panic
    | Some a =>
      if isWild a then
        match nextTx c with
        | 0 => Panic
        | S i =>
          match text !! i with
          | None => Panic
          | Some b =>
            if negb (Ascii.eqb b "/"%char) then
              Continue (Cursor (key c) (nx c) (vx c) (nextPx c) (nextTx c)
                               (nextPx c) (nextTx c)) vars
            else Return false (Vars_Reset vars)
          end
        end
      else Return false (Vars_Reset vars)
    end
  else Return false (Vars_Reset vars).

(** [case '*', '{'] (lines 56-70). *)
Definition wildcard (a : ascii) (c : cursor) (vars : Vars) : outcome :=
  let nextPx' := px c in
  let nextTx' := tx c + 1 in
  let px1 := px c + 1 in
  if Ascii.eqb a "{"%char then
    if nx c <? px1 then
      let nx' := match IndexByte (drop px1 pattern) "}"%char with
                 | Some i => px1 + i
                 | None => px1 - 1
                 end in
      match slice pattern px1 nx' with
      | None => Panic
      | Some k =>
        Continue (Cursor (str k) nx' (tx c) (px1 + length k + 1) (tx c)
                         nextPx' nextTx') vars
      end
    else
      Continue (Cursor (key c) (nx c) (vx c)
                       (px1 + String.length (key c) + 1) (tx c)
                       nextPx' nextTx') vars
  else
    Continue (Cursor (key c) (nx c) (vx c) px1 (tx c) nextPx' nextTx') vars.

(** [case '?'] (lines 49-55). *)
Definition single (c : cursor) (vars : Vars) : outcome :=
  match text !! tx c with
  | Some b =>
    if negb (Ascii.eqb b "/"%char) then
      let n := DecodeRuneInString_width (drop (tx c) text) in
      Continue (Cursor (key c) (nx c) (vx c) (px c + 1) (tx c + n)
                       (nextPx c) (nextTx c)) vars
    else retry c vars
  | None => retry c vars
  end.

(** [default] (lines 40-48). *)
Definition literal (a : ascii) (c : cursor) (vars : Vars) : outcome :=
  match text !! tx c with
  | Some b =>
    if Ascii.eqb b a then
      match finalize c vars with
      | None => Panic
      | Some vars' =>
        Continue (Cursor (key c) (nx c) (vx c) (px c + 1) (tx c + 1)
                         (nextPx c) (nextTx c)) vars'
      end
    else retry c vars
  | None => retry c vars
  end.

(** One evaluation of the loop condition and, when it holds, of the loop
    body; when it fails, of the code after the loop. *)
Definition step (c : cursor) (vars : Vars) : outcome :=
  if (px c <? length pattern) || (tx c <? length text) then
    match pattern !! px c with
    | Some a =>
      if Ascii.eqb a "?"%char then single c vars
      else if isWild a then wildcard a c vars
      else literal a c vars
    | None => retry c vars
    end
  else
    match finalize c vars with
    | None => Panic
    | Some vars' => Return true vars'
    end.

Fixpoint loop (fuel : nat) (c : cursor) (vars : Vars) : result :=
  match fuel with
  | 0 => OutOfFuel
  | S fuel' =>
    match step c vars with
    | Continue c' vars' => loop fuel' c' vars'
    | Return b vars' => Returned b vars'
    | Panic => Panicked
    end
  end.

(** A number of turns that always suffices (see [loop_terminates]). *)
Definition turns : nat := (length text + 2) * (length pattern + 1) + 1.

(** *** Notions used to state the properties *)

(** Two turns that take the same branch. *)
Definition same_control (o1 o2 : outcome) : Prop :=
  match o1, o2 with
  | Continue c1 _, Continue c2 _ => c1 = c2
  | Return b1 _, Return b2 _ => b1 = b2
  | Panic, Panic => True
  | _, _ => False
  end.

(** The resume position the next failure would use: a wildcard under the
    pattern cursor is about to save [tx + 1]. *)
Definition pendingTx (c : cursor) : nat :=
  match pattern !! px c with
  | Some a => if isWild a then tx c + 1 else nextTx c
  | None => nextTx c
  end.

(** Resumes still possible, then pattern bytes still to scan. *)
Definition variant (c : cursor) : nat :=
  (length text + 1 - pendingTx c) * (length pattern + 1)
  + (length pattern - px c).

(** Cursor bounds kept by every turn. *)
Definition in_bounds (c : cursor) : Prop :=
  tx c ≤ length text ∧ nextTx c ≤ tx c + 1.
End Match.

Definition Match (pattern text : string) (vars : Vars) : result :=
  loop (bytes pattern) (bytes text) (turns (bytes pattern) (bytes text))
       init vars.

(** The boolean a call returns, if it returns. *)
Definition verdict (r : result) : option bool :=
  match r with
  | Returned b _ => Some b
  | _ => None
  end.

(** ** The pattern language

    The grammar of the doc comment of [Match]: a pattern is a sequence of
    terms. *)

Inductive term :=
| Lit (a : ascii)       (* c, any byte but '*', '?' and '{' *)
| Any                   (* '?' *)
| Star                  (* '*' *)
| Named (name : string) (* '{' name '}', no '}' in the name *).

Definition render_term (t : term) : list ascii :=
  match t with
  | Lit a => [a]
  | Any => ["?"%char]
  | Star => ["*"%char]
  | Named k => "{"%char :: bytes k ++ ["}"%char]
  end.

(** The text of a pattern. *)
Definition render (ts : list term) : list ascii := concat (render_term <$> ts).

Definition pattern_of (ts : list term) : string := str (render ts).

Definition wf_term (t : term) : bool :=
  match t with
  | Lit a => negb (Ascii.eqb a "?"%char) && negb (isWild a)
  | Named k => negb (existsb (Ascii.eqb "}"%char) (bytes k))
  | _ => true
  end.

(** Terms that [render] reads back as themselves. *)
Definition wf (ts : list term) : bool := forallb wf_term ts.

Definition wild (t : term) : bool :=
  match t with
  | Star | Named _ => true
  | _ => false
  end.

Definition rigid (t : term) : bool := negb (wild t).

(** Patterns in which the code records every capture: each named term is
    followed by a literal or ends the pattern, and ['}'] occurs only as the
    end of a named term. *)
Fixpoint capturing (ts : list term) : bool :=
  match ts with
  | [] => true
  | Lit a :: r => negb (Ascii.eqb a "}"%char) && capturing r
  | Named _ :: r =>
    match r with
    | [] | Lit _ :: _ => capturing r
    | _ => false
    end
  | _ :: r => capturing r
  end.

(** [s[i:j]] when in range. *)
Definition sub (s : list ascii) (i j : nat) : list ascii :=
  take (j - i) (drop i s).

(** [covers ts s ws]: the pattern [ts] matches all of [s], the term number
    [n] accounting for the span number [n] of [ws]. *)
Inductive covers : list term → list ascii → list (list ascii) → Prop :=
| covers_nil : covers [] [] []
| covers_Lit a ts s ws :
    covers ts s ws → covers (Lit a :: ts) (a :: s) ([a] :: ws)
| covers_Any b ts s ws :
    b ≠ "/"%char →
    covers ts (drop (DecodeRuneInString_width (b :: s)) (b :: s)) ws →
    covers (Any :: ts) (b :: s)
           (take (DecodeRuneInString_width (b :: s)) (b :: s) :: ws)
| covers_Star ts w s ws :
    "/"%char ∉ w → covers ts s ws → covers (Star :: ts) (w ++ s) (w :: ws)
| covers_Named k ts w s ws :
    "/"%char ∉ w → covers ts s ws → covers (Named k :: ts) (w ++ s) (w :: ws).

(** The bindings of a match, in pattern order. *)
Fixpoint captures (ts : list term) (ws : list (list ascii))
  : list (string * string) :=
  match ts, ws with
  | Named k :: ts', w :: ws' => (k, str w) :: captures ts' ws'
  | _ :: ts', _ :: ws' => captures ts' ws'
  | _, _ => []
  end.

(** [vars.Set] for each binding in turn. *)
Definition bind (vars : Vars) (caps : list (string * string)) : Vars :=
  fold_left (λ vs kv, Vars_Set vs kv.1 kv.2) caps vars.

(** First and last byte of a rendered term. *)
Definition head_byte (t : term) : ascii :=
  match t with
  | Lit a => a
  | Any => "?"
  | Star => "*"
  | Named _ => "{"
  end%char.

Definition last_byte (t : term) : ascii :=
  match t with
  | Lit a => a
  | Any => "?"
  | Star => "*"
  | Named _ => "}"
  end%char.

(** The binding a wildcard contributes. *)
Definition capture_of (W : term) (w : list ascii) : list (string * string) :=
  match W with
  | Named k => [(k, str w)]
  | _ => []
  end.

(** The pending binding after a literal has been matched behind the
    wildcard [W]. *)
Definition pend_after (text : list ascii) (W : term) (mid : list term)
    (w0 e : nat) (pend : list (string * string)) : list (string * string) :=
  match W, mid with
  | Named k, [] => [(k, str (sub text w0 e))]
  | _, _ => pend
  end.

(** *** The loop invariant of [Match] *)

Section Invariant.
Variable terms : list term.
Variable text : list ascii.
Variable vars0 : Vars.

(** [spans ts i j ws]: [ts] matches [text[i:j]] inside [text]. *)
Inductive spans : list term → nat → nat → list (list ascii) → Prop :=
| spans_nil i : i ≤ length text → spans [] i i []
| spans_Lit a ts i j ws :
    text !! i = Some a → spans ts (S i) j ws →
    spans (Lit a :: ts) i j ([a] :: ws)
| spans_Any b ts i j ws :
    text !! i = Some b → b ≠ "/"%char →
    spans ts (i + DecodeRuneInString_width (drop i text)) j ws →
    spans (Any :: ts) i j
          (sub text i (i + DecodeRuneInString_width (drop i text)) :: ws)
| spans_Star ts i m j ws :
    i ≤ m → "/"%char ∉ sub text i m → spans ts m j ws →
    spans (Star :: ts) i j (sub text i m :: ws)
| spans_Named k ts i m j ws :
    i ≤ m → "/"%char ∉ sub text i m → spans ts m j ws →
    spans (Named k :: ts) i j (sub text i m :: ws).

(** What [vars] may hold for the wildcard [W] at the retry point, matched
    so far against [w] and followed so far by the terms [mid]. *)
Inductive pending : term → list term → list ascii
                    → list (string * string) → Prop :=
| pending_Star mid w : pending Star mid w []
| pending_unset k w : pending (Named k) [] w []
| pending_stale k w v : pending (Named k) [] w [(k, v)]
| pending_set k t mid w : pending (Named k) (t :: mid) w [(k, str w)].

(** [nx], [key] and [vx] describe the wildcard [W] at [q] that started
    at [w0] when it is named, and lie behind it otherwise. *)
Definition brace_ok (W : term) (q w0 : nat) (c : cursor) : Prop :=
  match W with
  | Named k => nx c = q + 1 + length (bytes k) ∧ key c = k ∧ vx c = w0
  | _ => nx c ≤ q ∧ vx c ≤ w0
  end.

Inductive Inv (c : cursor) (vars : Vars) : Prop :=
| Inv_start mid rest ws :
    terms = mid ++ rest → forallb rigid mid = true →
    spans mid 0 (tx c) ws →
    px c = length (render mid) → nextTx c = 0 → nx c = 0 → vx c = 0 →
    (capturing terms = true → vars = vars0) →
    Inv c vars
| Inv_wild pre W mid rest w0 e ws wsm pend :
    terms = pre ++ W :: mid ++ rest → wild W = true →
    forallb rigid mid = true →
    spans pre 0 w0 ws → w0 ≤ e → "/"%char ∉ sub text w0 e →
    spans mid e (tx c) wsm →
    px c = length (render (pre ++ W :: mid)) →
    nextPx c = length (render pre) → nextTx c = e + 1 →
    brace_ok W (nextPx c) w0 c →
    (capturing terms = true →
     pending W mid (sub text w0 e) pend ∧
     vars = bind vars0 (captures pre ws ++ pend)) →
    Inv c vars
| Inv_resumed pre W rest w0 ws pend :
    terms = pre ++ W :: rest → wild W = true →
    spans pre 0 w0 ws → w0 ≤ tx c → tx c ≤ length text →
    "/"%char ∉ sub text w0 (tx c) →
    px c = length (render pre) → nextPx c = px c → nextTx c = tx c →
    brace_ok W (px c) w0 c →
    (capturing terms = true →
     pending W [] [] pend ∧ vars = bind vars0 (captures pre ws ++ pend)) →
    Inv c vars.
End Invariant.

(** * Method

    [Method] is a Go map from method names to handlers.  A handler is known
    only through the calls it makes on the [http.ResponseWriter]; so the
    dispatcher is modelled by the sequence of calls it makes. *)

Inductive call :=
| HeaderSet (name value : string)   (* rw.Header().Set(name, value) *)
| HeaderDel (name : string)         (* rw.Header().Del(name) *)
| WriteHeader (code : nat)          (* rw.WriteHeader(code) *)
| Write (body : string)             (* rw.Write(body) *).

Record Request := { req_Method : string }.

Definition Handler := Request → list call.

Definition MethodOptions : string := "OPTIONS".
Definition StatusMethodNotAllowed : nat := 405.

(** Go compares strings byte by byte. *)
Definition string_le (s1 s2 : string) : Prop := String.leb s1 s2.

(** [sort.Strings]: the slice in increasing order. *)
Definition sort_Strings (l : list string) : list string :=
  merge_sort string_le l.

(** [strings.Join]. *)
Fixpoint Join (elems : list string) (sep : string) : string :=
  match elems with
  | [] => ""
  | [s] => s
  | s :: rest => s +:+ sep +:+ Join rest sep
  end.

Section Method.
(** [strings.ToUpper] and [http.Error] belong to the Go library and are
    parameters of the model. *)
Variable ToUpper : string → string.
Variable http_Error : string → nat → list call.

(** The loop of lines 142-148, over the keys in the order [range] yields
    them. *)
Fixpoint allowed (allow : list string) (keys : list string) : list string :=
  match keys with
  | [] => allow
  | k :: keys' =>
    let k := ToUpper k in
    if decide (k ≠ MethodOptions) then allowed (allow ++ [k]) keys'
    else allowed allow keys'
  end.

(** [ServeHTTP]; [keys] is the order in which [range route] yields the keys
    of the map, which Go leaves unspecified. *)
Definition ServeHTTP (route : gmap string Handler) (keys : list string)
    (req : Request) : list call :=
  let method := ToUpper (req_Method req) in
  match route !! method with
  | Some h => h req
  | None =>
    let allow := sort_Strings (allowed [MethodOptions] keys) in
    HeaderSet "Allow" (Join allow ", ")
    :: (if decide (method ≠ MethodOptions)
        then http_Error "405 method not allowed" StatusMethodNotAllowed
        else [])
  end.
End Method.

(** What [range route] may yield: the keys of the map, each once. *)
Definition range_of (route : gmap string Handler) (keys : list string) : Prop :=
  keys ≡ₚ (map_to_list route).*1.

(** ASCII upper-casing, which is [strings.ToUpper] on ASCII strings. *)
Definition upper_byte (a : ascii) : ascii :=
  let n := N_of_ascii a in
  if (0x61 <=? n)%N && (n <=? 0x7A)%N then ascii_of_N (n - 0x20) else a.

Fixpoint ascii_ToUpper (s : string) : string :=
  match s with
  | EmptyString => EmptyString
  | String a r => String (upper_byte a) (ascii_ToUpper r)
  end.

(** [http.Error] as in net/http: content type, status, message. *)
Definition net_http_Error (msg : string) (code : nat) : list call :=
  [HeaderDel "Content-Length";
   HeaderSet "Content-Type" "text/plain; charset=utf-8";
   HeaderSet "X-Content-Type-Options" "nosniff";
   WriteHeader code;
   Write (msg +:+ String (ascii_of_N 10) "")].

(** [Get], [Post] and [Put]: the table with the one handler. *)
Definition Get (h : Handler) : gmap string Handler := {["GET" := h]}.
Definition Post (h : Handler) : gmap string Handler := {["POST" := h]}.
Definition Put (h : Handler) : gmap string Handler := {["PUT" := h]}.

(** ** Notions used to state further properties of [Match] *)

(** Patterns without ['?']. *)
Definition anyfree (ts : list term) : bool :=
  forallb (λ t, match t with Any => false | _ => true end) ts.

(** Patterns of literal characters only. *)
Definition literal_only (ts : list term) : bool :=
  forallb (λ t, match t with Lit _ => true | _ => false end) ts.

(** The text matches the pattern. *)
Definition matchable (ts : list term) (s : list ascii) : Prop :=
  ∃ ws, covers ts s ws.

(** The terms that start at byte [n] of the rendered pattern. *)
Fixpoint terms_from (n : nat) (ts : list term) : list term :=
  match n, ts with
  | 0, _ => ts
  | _, [] => []
  | _, t :: r => terms_from (n - length (render_term t)) r
  end.

(** The retry point lies inside the pattern, and as long as no wildcard
    has been met the pattern does not start with one. *)
Definition safe (pattern : list ascii) (c : cursor) : Prop :=
  nextPx c < length pattern ∧
  (nextTx c = 0 →
   nextPx c = 0 ∧
   (px c = 0 ∨ ∃ a, pattern !! 0 = Some a ∧ isWild a = false)).

(** While the text matches the pattern, what is left to do can be done:
    before the first wildcard the rest of the pattern matches the rest of
    the text; afterwards the wildcard at the retry point can be extended,
    without meeting ['/'], to a place where the terms behind it match. *)
Definition Comp (terms : list term) (text : list ascii) (c : cursor) : Prop :=
  if decide (nextTx c = 0) then
    matchable (terms_from (px c) terms) (drop (tx c) text)
  else
    let lo := if decide (px c = nextPx c) then nextTx c else nextTx c - 1 in
    ∃ m, lo ≤ m ∧ ("/"%char ∉ sub text lo m) ∧
         matchable (tail (terms_from (nextPx c) terms)) (drop m text).

(** Whether a call faulted. *)
Definition faulted (r : result) : bool :=
  match r with
  | Panicked => true
  | _ => false
  end.

(** * Properties of [Match] *)

(** ** Elementary facts *)

Lemma DecodeRuneInString_width_bounds s :
  s ≠ [] → 1 ≤ DecodeRuneInString_width s ≤ length s.
Proof.
  intros Hs. destruct s as [|s0 s]; [done|].
  unfold DecodeRuneInString_width.
  destruct (first (N_of_ascii s0)) as [[sz [lo hi]]|] eqn:Hf; [|simpl; lia].
  assert (sz = 2 ∨ sz = 3 ∨ sz = 4) as Hsz.
  { unfold first in Hf. repeat case_match; simplify_eq; auto. }
  destruct (length (s0 :: s) <? sz) eqn:Hl; [simpl; lia|].
  apply Nat.ltb_ge in Hl.
  destruct s as [|s1 [|s2 [|s3 s]]]; simpl in *;
    repeat case_match; simpl; try lia;
    destruct Hsz as [-> | [-> | ->]]; simpl in *; try lia; try done.
Qed.

Lemma Vars_Reset_nil vars : Vars_Reset vars = [].
Proof. reflexivity. Qed.

Lemma Vars_Get_Set vars k v : Vars_Get (Vars_Set vars k v) k = v.
Proof.
  induction vars as [|[k' v'] vars IH]; simpl.
  - by rewrite String.eqb_refl.
  - destruct (String.eqb k' k) eqn:E; simpl.
    + by rewrite String.eqb_refl.
    + by rewrite E.
Qed.

Section MatchFacts.
Variables pattern text : list ascii.

Local Abbreviation step := (step pattern text).
Local Abbreviation retry := (retry pattern text).
Local Abbreviation loop := (loop pattern text).

(** Every [return false] is preceded by [vars.Reset()]. *)
Lemma retry_false c vars vars' :
  retry c vars = Return false vars' → vars' = [].
Proof. unfold retry. intros H. repeat case_match; by simplify_eq. Qed.

Lemma retry_not_true c vars vars' : retry c vars ≠ Return true vars'.
Proof. unfold retry. repeat case_match; congruence. Qed.

Lemma step_false c vars vars' :
  step c vars = Return false vars' → vars' = [].
Proof.
  unfold step, single, wildcard, literal. intros H.
  repeat case_match; simplify_eq; eauto using retry_false.
Qed.

Lemma loop_false n c vars vars' :
  loop n c vars = Returned false vars' → vars' = [].
Proof.
  revert c vars. induction n as [|n IH]; intros c vars; simpl; [done|].
  destruct (step c vars) as [c1 vars1| b vars1|] eqn:Hs; [by apply IH| |done].
  intros [= -> ->]. eauto using step_false.
Qed.

Lemma finalize_control c v1 v2 :
  match finalize pattern text c v1, finalize pattern text c v2 with
  | Some _, Some _ | None, None => True
  | _, _ => False
  end.
Proof.
  unfold finalize. destruct (px c); [done|].
  destruct (pattern !! n) as [a|]; cbn; [|done].
  destruct (Ascii.eqb a "}"%char); [|done].
  by destruct (slice text (vx c) (tx c)).
Qed.

Lemma retry_control c v1 v2 : same_control (retry c v1) (retry c v2).
Proof. unfold retry. repeat case_match; simpl; done. Qed.

Lemma step_control c v1 v2 : same_control (step c v1) (step c v2).
Proof.
  pose proof (finalize_control c v1 v2) as Hf.
  pose proof (retry_control c v1 v2) as Hr.
  unfold step, single, wildcard, literal.
  destruct (_ || _).
  - destruct (pattern !! px c) as [a|]; [|done].
    destruct (Ascii.eqb a "?"%char).
    { destruct (text !! tx c) as [b|]; [|done]. by destruct (negb _). }
    destruct (isWild a).
    { repeat case_match; simpl; done. }
    destruct (text !! tx c) as [b|]; [|done].
    destruct (Ascii.eqb b a); [|done].
    destruct (finalize pattern text c v1), (finalize pattern text c v2);
      simpl; done.
  - destruct (finalize pattern text c v1), (finalize pattern text c v2);
      simpl; done.
Qed.

Lemma loop_control n c v1 v2 :
  verdict (loop n c v1) = verdict (loop n c v2) ∧
  (loop n c v1 = Panicked ↔ loop n c v2 = Panicked).
Proof.
  revert c v1 v2. induction n as [|n IH]; intros c v1 v2; simpl; [done|].
  pose proof (step_control c v1 v2) as Hc.
  destruct (step c v1) as [c1 w1|b1 w1|], (step c v2) as [c2 w2|b2 w2|];
    simpl in Hc; try done; subst; [apply IH|].
  split; [done|]. split; intros; discriminate.
Qed.
End MatchFacts.

(** ** Termination *)

Section Termination.
Variables pattern text : list ascii.

Local Abbreviation step := (step pattern text).
Local Abbreviation retry := (retry pattern text).
Local Abbreviation loop := (loop pattern text).
Local Abbreviation pendingTx := (pendingTx pattern).
Local Abbreviation variant := (variant pattern text).
Local Abbreviation in_bounds := (in_bounds text).

Lemma in_bounds_init : in_bounds init.
Proof. unfold in_bounds; simpl; lia. Qed.

Lemma retry_Continue c vars c' vars' :
  retry c vars = Continue c' vars' →
  c' = Cursor (key c) (nx c) (vx c) (nextPx c) (nextTx c)
              (nextPx c) (nextTx c) ∧
  vars' = vars ∧ 1 ≤ nextTx c ≤ length text ∧
  ∃ a, pattern !! nextPx c = Some a ∧ isWild a = true.
Proof.
  unfold retry. intros H.
  destruct (nextTx c <=? length text) eqn:Hle; [|done].
  apply Nat.leb_le in Hle.
  destruct (pattern !! nextPx c) as [a|] eqn:Ha; [|done].
  destruct (isWild a) eqn:Hw; [|done].
  destruct (nextTx c) as [|i] eqn:Hn; [done|].
  destruct (text !! i); [|done]. destruct (negb _); [|done].
  simplify_eq. repeat split; eauto with lia.
Qed.

(** A turn that continues either scans forward in the pattern without
    lowering the pending resume position, or is a resume. *)
Lemma step_Continue c vars c' vars' :
  in_bounds c → step c vars = Continue c' vars' →
  (px c < length pattern ∧ px c < px c' ∧ tx c ≤ tx c' ≤ length text ∧
   (nextTx c' = nextTx c ∨ nextTx c' = tx c' + 1) ∧
   pendingTx c ≤ nextTx c' ∧ nextTx c' ≤ tx c' + 1)
  ∨ (retry c vars = Continue c' vars' ∧ pendingTx c = nextTx c).
Proof.
  intros [Ht Hn]. unfold step, pendingTx.
  destruct (_ || _) eqn:Hcond; [|by destruct finalize].
  destruct (pattern !! px c) as [a|] eqn:Ha; [|by right].
  pose proof (lookup_lt_Some _ _ _ Ha) as Hpx.
  destruct (Ascii.eqb a "?"%char) eqn:Hq.
  { apply Ascii.eqb_eq in Hq as ->. simpl. unfold single.
    destruct (text !! tx c) as [b|] eqn:Hb; [|by right].
    destruct (negb _); [|by right].
    intros [= <- <-]. left. simpl.
    pose proof (lookup_lt_Some _ _ _ Hb).
    pose proof (DecodeRuneInString_width_bounds (drop (tx c) text)) as Hw.
    rewrite length_drop in Hw.
    assert (drop (tx c) text ≠ []) as Hne.
    { intros E%(f_equal length). rewrite length_drop in E. simpl in E. lia. }
    specialize (Hw Hne). lia. }
  destruct (isWild a) eqn:Hw.
  { unfold wildcard. intros H. left.
    repeat case_match; simplify_eq; simpl; lia. }
  unfold literal.
  destruct (text !! tx c) as [b|] eqn:Hb; [|by right].
  destruct (Ascii.eqb b a); [|by right].
  destruct finalize; [|done]. intros [= <- <-]. left. simpl.
  pose proof (lookup_lt_Some _ _ _ Hb). lia.
Qed.

Lemma step_in_bounds c vars c' vars' :
  in_bounds c → step c vars = Continue c' vars' → in_bounds c'.
Proof.
  intros Hb Hs. destruct (step_Continue _ _ _ _ Hb Hs) as [H|[H _]].
  - unfold in_bounds. lia.
  - apply retry_Continue in H as (-> & _ & ? & _).
    unfold in_bounds; simpl; lia.
Qed.

Lemma pendingTx_le c :
  nextTx c ≤ tx c + 1 → nextTx c ≤ pendingTx c ≤ tx c + 1.
Proof. unfold pendingTx. intros. repeat case_match; lia. Qed.

Lemma step_variant c vars c' vars' :
  in_bounds c → step c vars = Continue c' vars' → variant c' < variant c.
Proof.
  intros Hb Hs. destruct (step_Continue _ _ _ _ Hb Hs) as [H|[H Hp]].
  - destruct H as (Hlt & Hpx & Htx & _ & Hpend & Hn').
    pose proof (pendingTx_le c' Hn') as Hp'.
    unfold variant.
    assert (length text + 1 - pendingTx c' ≤ length text + 1 - pendingTx c)
      as HA by lia.
    apply (Nat.mul_le_mono_r _ _ (length pattern + 1)) in HA. lia.
  - apply retry_Continue in H as (-> & _ & Hn & a & Ha & Hw).
    unfold variant. rewrite Hp.
    unfold pendingTx at 1. simpl. rewrite Ha, Hw.
    replace (length text + 1 - nextTx c)
      with (S (length text + 1 - (nextTx c + 1))) by lia.
    simpl. lia.
Qed.

Lemma loop_fuel n c vars :
  in_bounds c → variant c < n →
  loop n c vars ≠ OutOfFuel ∧ ∀ m, n ≤ m → loop m c vars = loop n c vars.
Proof.
  revert c vars. induction n as [|n IH]; intros c vars Hb Hv; [lia|].
  simpl. destruct (step c vars) as [c1 vars1|b vars1|] eqn:Hs.
  - pose proof (step_in_bounds _ _ _ _ Hb Hs) as Hb1.
    pose proof (step_variant _ _ _ _ Hb Hs) as Hv1.
    destruct (IH c1 vars1 Hb1) as [Hne Hm]; [lia|]. split; [done|].
    intros [|m] Hle; [lia|]. simpl. rewrite Hs. apply Hm. lia.
  - split; [done|]. intros [|m] Hle; [lia|]. simpl. by rewrite Hs.
  - split; [done|]. intros [|m] Hle; [lia|]. simpl. by rewrite Hs.
Qed.

Lemma variant_init : variant init < turns pattern text.
Proof.
  unfold variant, turns.
  assert (length text + 1 - pendingTx init ≤ length text + 1) as HA by lia.
  apply (Nat.mul_le_mono_r _ _ (length pattern + 1)) in HA. simpl. lia.
Qed.

(** After a resume the wildcard under the cursor saves the next position:
    the retry point moves one byte to the right. *)
Lemma resume_advances c vars c1 vars1 c2 vars2 :
  retry c vars = Continue c1 vars1 → step c1 vars1 = Continue c2 vars2 →
  nextTx c2 = nextTx c + 1 ∧ nextTx c ≤ length text.
Proof.
  intros (-> & -> & Hn & a & Ha & Hw)%retry_Continue.
  unfold step. simpl. rewrite Ha.
  destruct (_ || _); [|by destruct finalize].
  assert (Ascii.eqb a "?"%char = false) as ->.
  { unfold isWild in Hw. apply Ascii.eqb_neq. intros ->. done. }
  rewrite Hw. unfold wildcard. simpl.
  intros H. repeat case_match; simplify_eq; simpl; lia.
Qed.
End Termination.

(** * Soundness of [Match] *)

(** ** Byte strings, slices and rendering *)

Lemma bytes_str l : bytes (str l) = l.
Proof. apply String.list_ascii_of_string_of_list_ascii. Qed.

Lemma str_bytes s : str (bytes s) = s.
Proof. apply String.string_of_list_ascii_of_string. Qed.

Lemma length_bytes s : length (bytes s) = String.length s.
Proof. induction s; simpl; congruence. Qed.

Lemma sub_diag s i : sub s i i = [].
Proof. unfold sub. by rewrite Nat.sub_diag. Qed.

Lemma length_sub s i j : j ≤ length s → length (sub s i j) = j - i.
Proof. intros. unfold sub. rewrite length_take, length_drop. lia. Qed.

Lemma sub_app s i m j : i ≤ m → m ≤ j → sub s i j = sub s i m ++ sub s m j.
Proof.
  intros. unfold sub.
  replace (j - i) with ((m - i) + (j - m)) by lia.
  rewrite <- take_take_drop, drop_drop.
  replace (i + (m - i)) with m by lia. done.
Qed.

Lemma sub_S s i b : s !! i = Some b → sub s i (S i) = [b].
Proof.
  intros H. unfold sub. replace (S i - i) with 1 by lia.
  by rewrite (drop_S _ _ _ H).
Qed.

Lemma sub_snoc s i j b :
  i ≤ j → s !! j = Some b → sub s i (j + 1) = sub s i j ++ [b].
Proof.
  intros. rewrite (sub_app s i j (j + 1)) by lia.
  by rewrite Nat.add_1_r, (sub_S _ _ b).
Qed.

Lemma drop_sub s i j : i ≤ j → drop i s = sub s i j ++ drop j s.
Proof.
  intros. unfold sub. rewrite <- (take_drop (j - i) (drop i s)) at 1.
  rewrite drop_drop. by replace (i + (j - i)) with j by lia.
Qed.

Lemma slice_sub s i j : i ≤ j → j ≤ length s → slice s i j = Some (sub s i j).
Proof.
  intros Hi Hj. unfold slice.
  apply Nat.leb_le in Hi, Hj. by rewrite Hi, Hj.
Qed.

Lemma render_app a b : render (a ++ b) = render a ++ render b.
Proof. unfold render. by rewrite fmap_app, concat_app. Qed.

Lemma render_cons t ts : render (t :: ts) = render_term t ++ render ts.
Proof. done. Qed.

Lemma render_term_length t : 0 < length (render_term t).
Proof. destruct t; simpl; lia. Qed.

Lemma render_nil_inv ts : length (render ts) = 0 → ts = [].
Proof.
  destruct ts as [|t ts]; [done|]. rewrite render_cons, length_app.
  pose proof (render_term_length t). lia.
Qed.

(** ** The capture list *)

Lemma Vars_Set_Set vars k v v' :
  Vars_Set (Vars_Set vars k v) k v' = Vars_Set vars k v'.
Proof.
  induction vars as [|[k0 v0] vars IH]; simpl.
  - by rewrite String.eqb_refl.
  - destruct (String.eqb k0 k) eqn:E; simpl.
    + by rewrite String.eqb_refl.
    + by rewrite E, IH.
Qed.

Lemma bind_app vars a b : bind vars (a ++ b) = bind (bind vars a) b.
Proof. apply fold_left_app. Qed.

Lemma bind_snoc vars a k v :
  bind vars (a ++ [(k, v)]) = Vars_Set (bind vars a) k v.
Proof. by rewrite bind_app. Qed.

Lemma captures_app ts1 ws1 ts2 ws2 :
  length ws1 = length ts1 →
  captures (ts1 ++ ts2) (ws1 ++ ws2) = captures ts1 ws1 ++ captures ts2 ws2.
Proof.
  revert ws1. induction ts1 as [|t ts1 IH]; intros [|w ws1] Hl;
    simplify_eq/=; [done|].
  destruct t; simpl; rewrite IH; done.
Qed.

Lemma captures_rigid ts ws : forallb rigid ts = true → captures ts ws = [].
Proof.
  revert ws. induction ts as [|t ts IH]; intros [|w ws] H; try done.
  - by destruct t.
  - simpl in H. apply andb_prop in H as [Ht Hts].
    destruct t; simpl in *; try done; by apply IH.
Qed.

(** ** Matches inside the text *)

Section Spans.
Variable text : list ascii.
Local Abbreviation spans := (spans text).

Lemma spans_le ts i j ws : spans ts i j ws → i ≤ j ∧ j ≤ length text.
Proof.
  induction 1 as [i Hi|a ts i j ws Ha _ IH|b ts i j ws Hb _ _ IH
                  |ts i m j ws Hm _ _ IH|k ts i m j ws Hm _ _ IH]; try lia.
Qed.

Lemma spans_length ts i j ws : spans ts i j ws → length ws = length ts.
Proof. induction 1; simpl; congruence. Qed.

Lemma spans_app ts1 ts2 i m j ws1 ws2 :
  spans ts1 i m ws1 → spans ts2 m j ws2 → spans (ts1 ++ ts2) i j (ws1 ++ ws2).
Proof. induction 1; intros; simpl; [done|econstructor; eauto..]. Qed.

Lemma spans_nil_inv i j ws : spans [] i j ws → j = i ∧ ws = [].
Proof. by inversion 1. Qed.

Lemma spans_covers ts i ws :
  spans ts i (length text) ws → covers ts (drop i text) ws.
Proof.
  remember (length text) as n eqn:Hn.
  induction 1 as [i Hi|a ts i j ws Ha Hs IH|b ts i j ws Hb Hne Hs IH
                  |ts i m j ws Hm Hsep Hs IH|k ts i m j ws Hm Hsep Hs IH];
    subst.
  - rewrite drop_ge by done. constructor.
  - rewrite (drop_S _ _ _ Ha). constructor. auto.
  - specialize (IH eq_refl). rewrite <- drop_drop in IH.
    unfold sub. replace (i + _ - i) with
      (DecodeRuneInString_width (drop i text)) by lia.
    revert IH. rewrite (drop_S _ _ _ Hb). intros IH. by constructor.
  - rewrite (drop_sub _ i m) by done. constructor; auto.
  - rewrite (drop_sub _ i m) by done. constructor; auto.
Qed.
End Spans.

(** ** One turn of the loop, term by term *)

Lemma render_lookup_head pre t rest :
  render (pre ++ t :: rest) !! length (render pre) = Some (head_byte t).
Proof.
  rewrite render_app, render_cons, lookup_app_r, Nat.sub_diag by done.
  by destruct t.
Qed.

Lemma render_lt pre t rest :
  length (render pre) < length (render (pre ++ t :: rest)).
Proof. eapply lookup_lt_Some, render_lookup_head. Qed.

Lemma IndexByte_app l c r :
  existsb (Ascii.eqb c) l = false → IndexByte (l ++ c :: r) c = Some (length l).
Proof.
  induction l as [|a l IH]; simpl.
  - by rewrite Ascii.eqb_refl.
  - intros [Ha Hl]%orb_false_elim. rewrite Ascii.eqb_sym, Ha, IH by done. done.
Qed.

Lemma wf_app a b : wf (a ++ b) = wf a && wf b.
Proof. apply forallb_app. Qed.

Section Turn.
Variables (pre rest : list term) (text : list ascii).

Lemma step_term t c vars :
  wf_term t = true → px c = length (render pre) →
  step (render (pre ++ t :: rest)) text c vars =
    match t with
    | Lit a => literal (render (pre ++ t :: rest)) text a c vars
    | Any => single (render (pre ++ t :: rest)) text c vars
    | _ => wildcard (render (pre ++ t :: rest)) (head_byte t) c vars
    end.
Proof.
  intros Hwf Hpx. unfold step. rewrite Hpx, render_lookup_head.
  pose proof (render_lt pre t rest) as Hlt.
  apply Nat.ltb_lt in Hlt. rewrite Hlt. simpl.
  destruct t as [a| | |k]; simpl in *; try done.
  apply andb_prop in Hwf as [H1 H2].
  apply negb_true_iff in H1, H2. by rewrite H1, H2.
Qed.

Lemma step_Star c vars :
  px c = length (render pre) →
  step (render (pre ++ Star :: rest)) text c vars
  = Continue (Cursor (key c) (nx c) (vx c) (px c + 1) (tx c)
                     (px c) (tx c + 1)) vars.
Proof. intros Hpx. by rewrite step_term. Qed.

Lemma drop_name k :
  drop (length (render pre) + 1) (render (pre ++ Named k :: rest))
  = bytes k ++ "}"%char :: render rest.
Proof.
  rewrite render_app, render_cons, Nat.add_1_r. simpl.
  rewrite <- (Nat.add_0_r (length _)), <- Nat.add_succ_r.
  rewrite drop_app_add. simpl. by rewrite <- app_assoc.
Qed.

Lemma step_Named_first c vars k :
  wf_term (Named k) = true → px c = length (render pre) → nx c ≤ px c →
  step (render (pre ++ Named k :: rest)) text c vars =
    Continue (Cursor k (px c + 1 + length (bytes k)) (tx c)
                     (px c + 1 + length (bytes k) + 1) (tx c)
                     (px c) (tx c + 1)) vars.
Proof.
  intros Hwf Hpx Hnx. rewrite step_term by done. simpl.
  unfold wildcard. simpl.
  assert ((nx c <? px c + 1) = true) as -> by (apply Nat.ltb_lt; lia).
  rewrite Hpx, drop_name.
  simpl in Hwf. apply negb_true_iff in Hwf. rewrite IndexByte_app by done.
  unfold slice. rewrite drop_name.
  replace (_ + 1 + length (bytes k) - _) with (length (bytes k)) by lia.
  rewrite take_app_length.
  pose proof (f_equal length (drop_name k)) as Hl.
  rewrite length_drop, length_app in Hl. simpl in Hl.
  assert (_ && _ = true) as ->.
  { apply andb_true_intro. split; apply Nat.leb_le; lia. }
  by rewrite str_bytes.
Qed.

Lemma step_Named_again c vars k :
  wf_term (Named k) = true → px c = length (render pre) →
  nx c = px c + 1 + length (bytes k) → key c = k →
  step (render (pre ++ Named k :: rest)) text c vars =
    Continue (Cursor k (nx c) (vx c)
                     (px c + 1 + length (bytes k) + 1) (tx c)
                     (px c) (tx c + 1)) vars.
Proof.
  intros Hwf Hpx Hnx Hk. rewrite step_term by done. simpl.
  unfold wildcard. simpl.
  assert ((nx c <? px c + 1) = false) as -> by (apply Nat.ltb_ge; lia).
  by rewrite Hk, length_bytes.
Qed.
End Turn.

Lemma last_render_term t : last (render_term t) = Some (last_byte t).
Proof.
  destruct t as [a| | |k]; try done.
  change (render_term (Named k)) with (("{"%char :: bytes k) ++ ["}"%char]).
  apply last_snoc.
Qed.

Section Finalize.
Variable text : list ascii.

Lemma render_lookup_last pre t rest :
  render ((pre ++ [t]) ++ rest) !! (length (render (pre ++ [t])) - 1)
  = last (render_term t).
Proof.
  pose proof (render_term_length t).
  assert (render (pre ++ [t]) = render pre ++ render_term t) as Hr.
  { rewrite render_app, render_cons. simpl. by rewrite app_nil_r. }
  rewrite (render_app (pre ++ [t])), Hr, length_app.
  rewrite lookup_app_l by (rewrite length_app; lia).
  rewrite lookup_app_r by lia.
  rewrite last_lookup. f_equal. lia.
Qed.

(** What the finalisation does, by the last term before the cursor. *)
Lemma finalize_spec pre rest c vars vars' :
  px c = length (render pre) →
  finalize (render (pre ++ rest)) text c vars = Some vars' →
  match last pre with
  | Some (Named k) =>
    ∃ v, slice text (vx c) (tx c) = Some v ∧
         vars' = Vars_Set vars (key c) (str v)
  | Some (Lit a) => a ≠ "}"%char → vars' = vars
  | _ => vars' = vars
  end.
Proof.
  intros Hpx. unfold finalize.
  destruct pre as [|t pre _] using rev_ind.
  { rewrite Hpx. simpl. congruence. }
  rewrite last_snoc.
  pose proof (render_lookup_last pre t rest) as Hl.
  rewrite Hpx.
  destruct (length (render (pre ++ [t]))) as [|i] eqn:Hi.
  { apply render_nil_inv in Hi. by destruct pre. }
  simpl in Hl. rewrite Nat.sub_0_r in Hl.
  rewrite Hl, last_render_term. simpl.
  destruct t as [a| | |k]; simpl; try congruence.
  - destruct (Ascii.eqb a "}") eqn:E; [|congruence].
    apply Ascii.eqb_eq in E. intros _ ?. done.
  - destruct (slice text (vx c) (tx c)); simpl; [|done].
    intros [= <-]. eauto.
Qed.
End Finalize.

Lemma capturing_suffix a b : capturing (a ++ b) = true → capturing b = true.
Proof.
  induction a as [|t a IH]; [done|]. simpl.
  destruct t; try done.
  - intros [_ ?]%andb_prop. auto.
  - destruct (a ++ b) as [|[] ?]; try done; auto.
Qed.

Lemma capturing_Lit a x b : capturing (a ++ Lit x :: b) = true → x ≠ "}"%char.
Proof.
  intros H%capturing_suffix. simpl in H. apply andb_prop in H as [H _].
  apply negb_true_iff, Ascii.eqb_neq in H. done.
Qed.

Lemma capturing_Named a k t b :
  capturing (a ++ Named k :: t :: b) = true → ∃ x, t = Lit x.
Proof. intros H%capturing_suffix. simpl in H. destruct t; eauto; done. Qed.

Lemma wf_elem pre t rest : wf (pre ++ t :: rest) = true → wf_term t = true.
Proof.
  rewrite wf_app. intros [_ H]%andb_prop. simpl in H.
  by apply andb_prop in H as [? _].
Qed.

Lemma forallb_rigid_snoc mid t :
  forallb rigid mid = true → rigid t = true → forallb rigid (mid ++ [t]) = true.
Proof. intros. rewrite forallb_app. simpl. by rewrite H, H0. Qed.

Lemma last_rigid (pre : list term) W mid :
  last (pre ++ W :: mid) = match last mid with Some t => Some t | None => Some W end.
Proof.
  destruct mid as [|t mid _] using rev_ind.
  - by rewrite last_snoc.
  - change (pre ++ W :: mid ++ [t]) with (pre ++ (W :: mid) ++ [t]).
    by rewrite app_assoc, !last_snoc.
Qed.

Section Steps.
Variable text : list ascii.

Lemma retry_resume pattern c vars c' vars' :
  retry pattern text c vars = Continue c' vars' →
  ∃ e b, nextTx c = e + 1 ∧ e < length text ∧ text !! e = Some b ∧
         b ≠ "/"%char ∧ vars' = vars ∧
         c' = Cursor (key c) (nx c) (vx c) (nextPx c) (nextTx c)
                     (nextPx c) (nextTx c).
Proof.
  unfold retry. intros H.
  destruct (nextTx c <=? length text) eqn:Hle; [|done].
  destruct (pattern !! nextPx c) as [a|]; [|done].
  destruct (isWild a); [|done].
  destruct (nextTx c) as [|e] eqn:Hn; [done|].
  destruct (text !! e) as [b|] eqn:Hb; [|done].
  destruct (Ascii.eqb b "/") eqn:E; [done|]. simplify_eq/=.
  apply Ascii.eqb_neq in E. pose proof (lookup_lt_Some _ _ _ Hb).
  exists e, b. rewrite ?Hn. split_and!; try done; lia.
Qed.

Lemma literal_Continue pattern a c vars c' vars' :
  literal pattern text a c vars = Continue c' vars' →
  (text !! tx c = Some a ∧ finalize pattern text c vars = Some vars' ∧
   c' = Cursor (key c) (nx c) (vx c) (px c + 1) (tx c + 1)
               (nextPx c) (nextTx c))
  ∨ retry pattern text c vars = Continue c' vars'.
Proof.
  unfold literal. destruct (text !! tx c) as [b|]; [|by right].
  destruct (Ascii.eqb b a) eqn:E; [|by right].
  apply Ascii.eqb_eq in E as ->.
  destruct finalize; [|done]. intros [= <- <-]. by left.
Qed.

Lemma single_Continue pattern c vars c' vars' :
  single pattern text c vars = Continue c' vars' →
  (∃ b, text !! tx c = Some b ∧ b ≠ "/"%char ∧ vars' = vars ∧
        c' = Cursor (key c) (nx c) (vx c) (px c + 1)
                    (tx c + DecodeRuneInString_width (drop (tx c) text))
                    (nextPx c) (nextTx c))
  ∨ retry pattern text c vars = Continue c' vars'.
Proof.
  unfold single. destruct (text !! tx c) as [b|]; [|by right].
  destruct (Ascii.eqb b "/") eqn:E; [by right|].
  apply Ascii.eqb_neq in E. intros [= <- <-]. left. eauto.
Qed.

Lemma step_end pattern c vars :
  length pattern ≤ px c →
  step pattern text c vars =
    if tx c <? length text then retry pattern text c vars
    else match finalize pattern text c vars with
         | Some vars' => Return true vars'
         | None => Panic
         end.
Proof.
  intros Hpx. unfold step.
  assert ((px c <? length pattern) = false) as -> by (apply Nat.ltb_ge; lia).
  simpl. rewrite (lookup_ge_None_2 pattern (px c)) by done.
  by destruct (tx c <? length text).
Qed.

Lemma spans_snoc_Lit mid i j ws a :
  spans text mid i j ws → text !! j = Some a →
  spans text (mid ++ [Lit a]) i (j + 1) (ws ++ [[a]]).
Proof.
  intros Hs Ha. eapply spans_app; [done|].
  rewrite Nat.add_1_r. constructor; [done|]. constructor.
  apply lookup_lt_Some in Ha. lia.
Qed.

Lemma spans_snoc_Any mid i j ws b :
  spans text mid i j ws → text !! j = Some b → b ≠ "/"%char →
  spans text (mid ++ [Any]) i (j + DecodeRuneInString_width (drop j text))
        (ws ++ [sub text j (j + DecodeRuneInString_width (drop j text))]).
Proof.
  intros Hs Hb Hne. eapply spans_app; [done|].
  econstructor; [done..|]. constructor.
  pose proof (DecodeRuneInString_width_bounds (drop j text)) as Hw.
  rewrite length_drop in Hw. apply lookup_lt_Some in Hb.
  assert (drop j text ≠ []) as Hd.
  { intros E%(f_equal length). rewrite length_drop in E. simpl in E. lia. }
  specialize (Hw Hd). lia.
Qed.

Lemma spans_wild pre W mid w0 e j ws wsm :
  wild W = true → spans text pre 0 w0 ws → w0 ≤ e →
  "/"%char ∉ sub text w0 e → spans text mid e j wsm →
  spans text (pre ++ W :: mid) 0 j (ws ++ sub text w0 e :: wsm).
Proof.
  intros HW Hpre Hle Hsep Hmid. eapply spans_app; [done|].
  destruct W; try done; by econstructor.
Qed.
End Steps.

(** ** Preservation of the invariant *)

Lemma slice_Some s lo hi v :
  slice s lo hi = Some v → v = sub s lo hi ∧ lo ≤ hi ∧ hi ≤ length s.
Proof.
  unfold slice. destruct (_ && _) eqn:E; [|done].
  apply andb_prop in E as [?%Nat.leb_le ?%Nat.leb_le]. by intros [= <-].
Qed.

Lemma last_forallb_rigid mid t :
  forallb rigid mid = true → last mid = Some t → rigid t = true.
Proof.
  intros H Hl. rewrite forallb_forall in H. apply H.
  apply list_elem_of_In. rewrite last_lookup in Hl.
  by eapply list_elem_of_lookup_2.
Qed.

Lemma captures_wild pre W mid ws w wsm :
  length ws = length pre → forallb rigid mid = true →
  captures (pre ++ W :: mid) (ws ++ w :: wsm) = captures pre ws ++ capture_of W w.
Proof.
  intros Hl Hrig. rewrite captures_app by done.
  destruct W; simpl; by rewrite (captures_rigid mid).
Qed.

Lemma length_render_wild pre W mid :
  length (render (pre ++ W :: mid))
  = length (render pre) + length (render_term W) + length (render mid).
Proof. rewrite render_app, render_cons, !length_app. lia. Qed.

Lemma length_render_snoc pre t :
  length (render (pre ++ [t])) = length (render pre) + length (render_term t).
Proof. rewrite length_render_wild. simpl. lia. Qed.

Section Preservation.
Variable text : list ascii.
Variable vars0 : Vars.

(** Under [capturing], the finalisation writes exactly when the term before
    the cursor is a named one. *)
Lemma finalize_capturing terms pre rest c vars vars' :
  terms = pre ++ rest → capturing terms = true →
  px c = length (render pre) →
  finalize (render terms) text c vars = Some vars' →
  match last pre with
  | Some (Named _) =>
    vars' = Vars_Set vars (key c) (str (sub text (vx c) (tx c)))
  | _ => vars' = vars
  end.
Proof.
  intros -> Hcap Hpx Hf. apply finalize_spec in Hf; [|done].
  destruct (last pre) as [[a| | |k]|] eqn:Hl; try done.
  - apply Hf. apply last_Some in Hl as [pre' ->].
    rewrite <- app_assoc in Hcap. by apply capturing_Lit in Hcap.
  - destruct Hf as (v & [-> _]%slice_Some & ->). done.
Qed.

Lemma Inv_step_start terms c vars c' vars' mid rest ws :
  wf terms = true →
  terms = mid ++ rest → forallb rigid mid = true →
  spans text mid 0 (tx c) ws →
  px c = length (render mid) → nextTx c = 0 → nx c = 0 → vx c = 0 →
  (capturing terms = true → vars = vars0) →
  step (render terms) text c vars = Continue c' vars' →
  Inv terms text vars0 c' vars'.
Proof.
  intros Hwf Ht Hrig Hsp Hpx Hntx Hnx Hvx Hvars Hs.
  assert (∀ c1 v1, retry (render terms) text c vars ≠ Continue c1 v1)
    as Hnoretry.
  { intros c1 v1 (e & b & He & _)%retry_resume. lia. }
  destruct rest as [|t rest].
  { rewrite app_nil_r in Ht. subst mid.
    rewrite step_end in Hs by lia.
    destruct (_ <? _); [by apply Hnoretry in Hs|]. by destruct finalize. }
  pose proof Hwf as Hwt. rewrite Ht in Hwt. apply wf_elem in Hwt.
  assert (terms = (mid ++ [t]) ++ rest) as Ht' by (by rewrite <- app_assoc).
  destruct t as [a| | |k].
  - rewrite Ht, step_term in Hs by done. rewrite <- Ht in Hs.
    apply literal_Continue in Hs as [(Ha & Hf & ->)|Hr];
      [|by apply Hnoretry in Hr].
    eapply (Inv_start _ _ _ _ _ (mid ++ [Lit a]) rest (ws ++ [[a]])); simpl;
      try done.
    + by apply forallb_rigid_snoc.
    + by apply spans_snoc_Lit.
    + rewrite render_app, length_app. simpl. lia.
    + intros Hcap.
      pose proof (finalize_capturing _ _ _ _ _ _ Ht Hcap Hpx Hf) as Hv.
      destruct (last mid) as [[]|] eqn:Hl; try (subst; auto; fail).
      by apply (last_forallb_rigid _ _ Hrig) in Hl.
  - rewrite Ht, step_term in Hs by done. rewrite <- Ht in Hs.
    apply single_Continue in Hs as [(b & Hb & Hne & -> & ->)|Hr];
      [|by apply Hnoretry in Hr].
    eapply (Inv_start _ _ _ _ _ (mid ++ [Any]) rest); simpl; try done.
    + by apply forallb_rigid_snoc.
    + by eapply spans_snoc_Any.
    + rewrite render_app, length_app. simpl. lia.
  - rewrite Ht, step_Star in Hs by done. simplify_eq.
    eapply (Inv_wild _ _ _ _ _ mid Star [] rest (tx c) (tx c) ws [] []);
      simpl; try done.
    + rewrite sub_diag. apply not_elem_of_nil.
    + constructor. apply spans_le in Hsp. lia.
    + rewrite render_app, length_app. simpl. lia.
    + lia.
    + intros Hcap. split; [constructor|].
      rewrite app_nil_r, captures_rigid by done. simpl. auto.
  - rewrite Ht, step_Named_first in Hs by (done || lia).
    simplify_eq.
    eapply (Inv_wild _ _ _ _ _ mid (Named k) [] rest (tx c) (tx c) ws [] []);
      simpl; try done.
    + rewrite sub_diag. apply not_elem_of_nil.
    + constructor. apply spans_le in Hsp. lia.
    + rewrite render_app, render_cons, !length_app. simpl.
      rewrite length_app. simpl. lia.
    + intros Hcap. split; [constructor|].
      rewrite app_nil_r, captures_rigid by done. simpl. auto.
Qed.

Lemma pending_done pre W mid t rest w pend :
  capturing (pre ++ W :: mid ++ t :: rest) = true → wild t = true →
  pending W mid w pend → pend = capture_of W w.
Proof.
  intros Hcap Ht Hp. destruct Hp; try done;
    apply capturing_Named in Hcap as [x ->]; done.
Qed.

Lemma brace_behind W pre mid w0 c :
  brace_ok W (length (render pre)) w0 c →
  nx c ≤ length (render (pre ++ W :: mid)) ∧ vx c ≤ w0.
Proof.
  rewrite length_render_wild.
  destruct W; simpl; rewrite ?length_app; simpl; lia.
Qed.

Lemma Inv_step_resumed terms c vars c' vars' pre W rest w0 ws pend :
  wf terms = true →
  terms = pre ++ W :: rest → wild W = true →
  spans text pre 0 w0 ws → w0 ≤ tx c → tx c ≤ length text →
  "/"%char ∉ sub text w0 (tx c) →
  px c = length (render pre) → nextPx c = px c → nextTx c = tx c →
  brace_ok W (px c) w0 c →
  (capturing terms = true →
   pending W [] [] pend ∧ vars = bind vars0 (captures pre ws ++ pend)) →
  step (render terms) text c vars = Continue c' vars' →
  Inv terms text vars0 c' vars'.
Proof.
  intros Hwf Ht HW Hsp Hw0 Htx Hsep Hpx Hnpx Hntx Hbr Hvars Hs.
  pose proof Hwf as Hwt. rewrite Ht in Hwt. apply wf_elem in Hwt.
  destruct W as [| | |k]; try done.
  - rewrite Ht, step_Star in Hs by done. simplify_eq.
    eapply (Inv_wild _ _ _ _ _ pre Star [] rest w0 (tx c) ws [] pend);
      simpl; try done.
    + by constructor.
    + rewrite length_render_snoc. simpl. lia.
    + intros Hcap. destruct (Hvars Hcap) as [Hp ->]. split; [|done].
      inversion Hp. constructor.
  - destruct Hbr as (Hnx & Hk & Hvx).
    rewrite Ht, step_Named_again in Hs by done. simplify_eq.
    eapply (Inv_wild _ _ _ _ _ pre (Named (key c)) [] rest (vx c) (tx c)
                     ws [] pend); simpl; try done.
    + by constructor.
    + rewrite length_render_snoc. simpl. rewrite length_app. simpl. lia.
    + intros Hcap. destruct (Hvars Hcap) as [Hp ->]. split; [|done].
      inversion Hp; constructor.
Qed.

Section Wild.
Context (terms : list term) (c : cursor) (vars : Vars).
Context (pre : list term) (W : term) (mid rest : list term).
Context (w0 e : nat) (ws wsm : list (list ascii)).
Context (pend : list (string * string)).
Hypothesis Hwf : wf terms = true.
Hypothesis Ht : terms = pre ++ W :: mid ++ rest.
Hypothesis HW : wild W = true.
Hypothesis Hrig : forallb rigid mid = true.
Hypothesis Hsp : spans text pre 0 w0 ws.
Hypothesis Hw0 : w0 ≤ e.
Hypothesis Hsep : "/"%char ∉ sub text w0 e.
Hypothesis Hmid : spans text mid e (tx c) wsm.
Hypothesis Hpx : px c = length (render (pre ++ W :: mid)).
Hypothesis Hnpx : nextPx c = length (render pre).
Hypothesis Hntx : nextTx c = e + 1.
Hypothesis Hbr : brace_ok W (nextPx c) w0 c.
Hypothesis Hvars : capturing terms = true →
  pending W mid (sub text w0 e) pend ∧
  vars = bind vars0 (captures pre ws ++ pend).

(** A resume extends the wildcard at the retry point by one byte. *)
Lemma Inv_retry c' vars' :
  retry (render terms) text c vars = Continue c' vars' →
  Inv terms text vars0 c' vars'.
Proof using All.
  intros (e' & b & He & Hlt & Hb & Hne & -> & ->)%retry_resume.
  assert (e' = e) as -> by lia.
  eapply (Inv_resumed _ _ _ _ _ pre W (mid ++ rest) w0 ws pend);
    simpl; try done; try lia.
  - rewrite Hntx, (sub_snoc _ _ _ b) by done.
    rewrite not_elem_of_app, list_elem_of_singleton. split; [done|congruence].
  - intros Hcap. destruct (Hvars Hcap) as [Hp ->]. split; [|done].
    destruct Hp; constructor.
Qed.

Lemma tx_mid_nil : mid = [] → tx c = e.
Proof using Hmid.
  intros E. pose proof Hmid as H. rewrite E in H.
  by apply spans_nil_inv in H as [? _].
Qed.

Lemma wild_bounds : e ≤ tx c ∧ tx c ≤ length text.
Proof using Hmid. by apply spans_le in Hmid. Qed.

Lemma wild_split t rest' :
  rest = t :: rest' → terms = (pre ++ W :: mid) ++ t :: rest'.
Proof using Ht. intros ->. rewrite Ht, <- app_assoc. done. Qed.

Lemma Inv_step_wild_Lit a rest' vars' :
  rest = Lit a :: rest' → text !! tx c = Some a →
  finalize (render terms) text c vars = Some vars' →
  Inv terms text vars0
      (Cursor (key c) (nx c) (vx c) (px c + 1) (tx c + 1)
              (nextPx c) (nextTx c)) vars'.
Proof using All.
  intros Hrest Ha Hf.
  eapply (Inv_wild _ _ _ _ _ pre W (mid ++ [Lit a]) rest' w0 e ws
                   (wsm ++ [[a]]) (pend_after text W mid w0 e pend));
    simpl; try done.
  - by rewrite Ht, Hrest, <- app_assoc.
  - by apply forallb_rigid_snoc.
  - by apply spans_snoc_Lit.
  - rewrite Hpx, !length_render_wild. simpl. lia.
  - intros Hcap. destruct (Hvars Hcap) as [Hp Hv].
    pose proof (finalize_capturing _ _ _ _ _ _
                  (wild_split _ _ Hrest) Hcap Hpx Hf) as Hfin.
    rewrite last_rigid in Hfin. unfold pend_after.
    pose proof tx_mid_nil as Hte.
    inversion Hp; subst; clear Hp.
    + split; [constructor|].
      destruct (last mid) as [x|] eqn:Hl; [|by subst].
      pose proof (last_forallb_rigid _ _ Hrig Hl) as Hx.
      destruct x; simpl in Hx; try done; by subst.
    + destruct Hbr as (_ & Hk & Hvx). simpl in Hfin.
      rewrite Hk, Hvx, Hte in Hfin by done.
      split; [constructor|]. subst. by rewrite app_nil_r, bind_snoc.
    + destruct Hbr as (_ & Hk & Hvx). simpl in Hfin.
      rewrite Hk, Hvx, Hte in Hfin by done.
      split; [constructor|]. subst.
      by rewrite !bind_snoc, Vars_Set_Set.
    + split; [constructor|].
      destruct (last (t :: mid0)) as [x|] eqn:Hl; [|by apply last_None in Hl].
      pose proof (last_forallb_rigid _ _ Hrig Hl) as Hx.
      destruct x; simpl in Hx; try done; by subst.
Qed.

Lemma Inv_step_wild_Any b rest' :
  rest = Any :: rest' → text !! tx c = Some b → b ≠ "/"%char →
  Inv terms text vars0
      (Cursor (key c) (nx c) (vx c) (px c + 1)
              (tx c + DecodeRuneInString_width (drop (tx c) text))
              (nextPx c) (nextTx c)) vars.
Proof using All.
  intros Hrest Hb Hne.
  eapply (Inv_wild _ _ _ _ _ pre W (mid ++ [Any]) rest' w0 e ws _ pend);
    simpl; try done.
  - by rewrite Ht, Hrest, <- app_assoc.
  - by apply forallb_rigid_snoc.
  - by eapply spans_snoc_Any.
  - rewrite Hpx, !length_render_wild. simpl. lia.
  - intros Hcap. destruct (Hvars Hcap) as [Hp Hv]. split; [|done].
    destruct Hp; try constructor;
      rewrite Ht, Hrest in Hcap; by apply capturing_Named in Hcap as [x ?].
Qed.

Lemma Inv_step_wild_next t rest' c1 :
  rest = t :: rest' → wild t = true →
  px c1 = px c + length (render_term t) → tx c1 = tx c →
  nextPx c1 = px c → nextTx c1 = tx c + 1 →
  brace_ok t (px c) (tx c) c1 →
  Inv terms text vars0 c1 vars.
Proof using All.
  intros Hrest Hwt Hpx1 Htx1 Hnpx1 Hntx1 Hbr1.
  pose proof wild_bounds as [He Htx].
  eapply (Inv_wild _ _ _ _ _ (pre ++ W :: mid) t [] rest' (tx c) (tx c)
                   (ws ++ sub text w0 e :: wsm) [] []); simpl; try done.
  - by apply wild_split.
  - by apply spans_wild.
  - rewrite sub_diag. apply not_elem_of_nil.
  - rewrite Htx1. by constructor.
  - rewrite length_render_snoc. lia.
  - lia.
  - by rewrite Hnpx1.
  - intros Hcap. destruct (Hvars Hcap) as [Hp Hv].
    rewrite Ht, Hrest in Hcap.
    rewrite (pending_done _ _ _ _ _ _ _ Hcap Hwt Hp) in Hv.
    split; [destruct t; try done; constructor|].
    rewrite app_nil_r, captures_wild; [done| |done].
    by apply spans_length in Hsp.
Qed.

(** A turn taken with a wildcard at the retry point. *)
Lemma Inv_step_wild c' vars' :
  step (render terms) text c vars = Continue c' vars' →
  Inv terms text vars0 c' vars'.
Proof using All.
  intros Hs.
  pose proof (Inv_retry c' vars') as HR.
  pose proof (λ a r, Inv_step_wild_Lit a r vars') as HL.
  pose proof Inv_step_wild_Any as HA.
  pose proof (λ t r, Inv_step_wild_next t r c') as HN.
  pose proof wild_split as Hsplit.
  pose proof wild_bounds as [He Htx].
  pose proof (brace_behind _ _ mid _ _ (eq_ind _ (λ q, brace_ok W q w0 c)
                                               Hbr _ Hnpx)) as [Hnx Hvx].
  destruct rest as [|t rest'].
  { rewrite step_end in Hs.
    2:{ rewrite Hpx, Ht, app_nil_r. done. }
    destruct (_ <? _); [by apply HR|by destruct finalize]. }
  specialize (Hsplit _ _ eq_refl).
  pose proof Hwf as Hwt. rewrite Hsplit in Hwt. apply wf_elem in Hwt.
  rewrite Hsplit in Hs. destruct t as [a| | |k].
  - rewrite step_term in Hs by done. rewrite <- Hsplit in Hs.
    apply literal_Continue in Hs as [(Ha & Hf & ->)|Hr];
      [by eapply HL|by apply HR].
  - rewrite step_term in Hs by done. rewrite <- Hsplit in Hs.
    apply single_Continue in Hs as [(b & Hb & Hne & -> & ->)|Hr];
      [by eapply HA|by apply HR].
  - rewrite step_Star in Hs by done. simplify_eq.
    eapply HN; simpl; try done. unfold brace_ok. simpl. lia.
  - rewrite step_Named_first in Hs by (done || lia). simplify_eq.
    eapply HN; simpl; try done.
    unfold render_term. simpl. rewrite length_app. simpl. lia.
Qed.
End Wild.
End Preservation.

(** ** From the invariant to the declarative match *)

Section Soundness.
Variable text : list ascii.
Variable vars0 : Vars.

Lemma Inv_init terms : Inv terms text vars0 init vars0.
Proof.
  eapply (Inv_start _ _ _ _ _ [] terms []); simpl; try done.
  constructor. lia.
Qed.

(** Every turn that continues keeps the invariant. *)
Lemma Inv_step terms c vars c' vars' :
  wf terms = true → Inv terms text vars0 c vars →
  step (render terms) text c vars = Continue c' vars' →
  Inv terms text vars0 c' vars'.
Proof.
  intros Hwf [] Hs.
  - by eapply Inv_step_start.
  - by eapply Inv_step_wild.
  - by eapply Inv_step_resumed.
Qed.

(** [return true] is reached only through the loop condition. *)
Lemma step_Return_true pattern c vars vars' :
  step pattern text c vars = Return true vars' →
  length pattern ≤ px c ∧ length text ≤ tx c ∧
  finalize pattern text c vars = Some vars'.
Proof.
  unfold step. destruct (_ || _) eqn:Hc.
  - pose proof (retry_not_true pattern text c vars vars') as Hr.
    unfold single, wildcard, literal. intros H.
    repeat case_match; simplify_eq; done.
  - apply orb_false_elim in Hc as [?%Nat.ltb_ge ?%Nat.ltb_ge].
    destruct finalize; [|done]. by intros [= ->].
Qed.

(** At [return true] the invariant covers the whole pattern and text. *)
Lemma Inv_return terms c vars vars' :
  Inv terms text vars0 c vars →
  step (render terms) text c vars = Return true vars' →
  ∃ ws, spans text terms 0 (length text) ws ∧
        (capturing terms = true → vars' = bind vars0 (captures terms ws)).
Proof.
  intros HI (Hpx & Htx & Hf)%step_Return_true.
  destruct HI as [mid rest ws Ht Hrig Hsp Hpx' _ _ _ Hvars
                 |pre W mid rest w0 e ws wsm pend Ht HW Hrig Hsp Hw0 Hsep
                      Hmid Hpx' Hnpx Hntx Hbr Hvars
                 |pre W rest w0 ws pend Ht _ _ _ _ _ Hpx' _ _ _ _].
  - assert (rest = []) as ->.
    { apply render_nil_inv. rewrite Ht, render_app, length_app in Hpx. lia. }
    rewrite app_nil_r in Ht. subst mid.
    pose proof (spans_le _ _ _ _ _ Hsp) as [_ Hle].
    replace (length text) with (tx c) by lia.
    exists ws. split; [done|]. intros Hcap.
    rewrite captures_rigid by done. simpl.
    rewrite <- (Hvars Hcap).
    pose proof (finalize_capturing text terms terms [] c vars vars') as Hfin.
    rewrite app_nil_r in Hfin. specialize (Hfin eq_refl Hcap Hpx' Hf).
    destruct (last terms) as [x|] eqn:Hl; [|done].
    pose proof (last_forallb_rigid _ _ Hrig Hl) as Hx.
    destruct x; simpl in Hx; done.
  - assert (rest = []) as ->.
    { apply render_nil_inv.
      assert (terms = (pre ++ W :: mid) ++ rest) as E
        by (by rewrite Ht, <- app_assoc).
      rewrite E, render_app, length_app in Hpx. lia. }
    rewrite app_nil_r in Ht.
    pose proof (spans_le _ _ _ _ _ Hmid) as [He Hle].
    assert (tx c = length text) as Hlen by lia.
    exists (ws ++ sub text w0 e :: wsm). split.
    { rewrite Ht, <- Hlen. by apply spans_wild. }
    intros Hcap. destruct (Hvars Hcap) as [Hp Hv].
    pose proof (finalize_capturing text terms (pre ++ W :: mid) [] c vars vars')
      as Hfin.
    rewrite app_nil_r in Hfin. specialize (Hfin Ht Hcap Hpx' Hf).
    rewrite last_rigid in Hfin.
    rewrite Ht, captures_wild; [| by eapply spans_length |done].
    pose proof (λ E : mid = [], proj1 (spans_nil_inv text e (tx c) wsm
                  (eq_ind _ (λ m, spans text m e (tx c) wsm) Hmid _ E)))
      as Hte.
    inversion Hp; subst W mid pend; clear Hp.
    + simpl. destruct (last mid0) as [x|] eqn:Hl; [|by subst].
      pose proof (last_forallb_rigid _ _ Hrig Hl) as Hx.
      destruct x; simpl in Hx; try done; by subst.
    + destruct Hbr as (_ & Hk & Hvx). simpl in Hfin.
      rewrite Hk, Hvx, Hte in Hfin by done.
      subst. simpl. by rewrite app_nil_r, bind_snoc.
    + destruct Hbr as (_ & Hk & Hvx). simpl in Hfin.
      rewrite Hk, Hvx, Hte in Hfin by done.
      subst. simpl. by rewrite !bind_snoc, Vars_Set_Set.
    + simpl.
      destruct (last (t :: mid0)) as [x|] eqn:Hl; [|by apply last_None in Hl].
      pose proof (last_forallb_rigid _ _ Hrig Hl) as Hx.
      destruct x; simpl in Hx; try done; by subst.
  - pose proof (render_lt pre W rest) as Hlt. rewrite <- Ht in Hlt. lia.
Qed.

Lemma loop_sound terms n c vars vars' :
  wf terms = true → Inv terms text vars0 c vars →
  loop (render terms) text n c vars = Returned true vars' →
  ∃ ws, spans text terms 0 (length text) ws ∧
        (capturing terms = true → vars' = bind vars0 (captures terms ws)).
Proof.
  intros Hwf. revert c vars.
  induction n as [|n IH]; intros c vars HI; simpl; [done|].
  destruct (step (render terms) text c vars) as [c1 vars1|b vars1|] eqn:Hs;
    [|intros [= -> ->]|done].
  - apply IH. by eapply Inv_step.
  - by eapply Inv_return.
Qed.
End Soundness.

Lemma covers_spans ts s ws :
  covers ts s ws →
  concat ws = s ∧ length ws = length ts ∧
  Forall2 (λ t w, wild t = true → "/"%char ∉ w) ts ws.
Proof.
  induction 1 as [|a ts s ws _ (IH1 & IH2 & IH3)
                  |b ts s ws Hb _ (IH1 & IH2 & IH3)
                  |ts w s ws Hw _ (IH1 & IH2 & IH3)
                  |k ts w s ws Hw _ (IH1 & IH2 & IH3)];
    [done|split_and!; [|simpl; by f_equal|by constructor]..].
  - simpl. by f_equal.
  - rewrite concat_cons, IH1. apply take_drop.
  - rewrite concat_cons. by f_equal.
  - rewrite concat_cons. by f_equal.
Qed.

(** A successful call has a declarative match, and on capturing patterns
    [vars] holds its bindings. *)
Lemma Match_sound terms text vars vars' :
  wf terms = true →
  Match (pattern_of terms) text vars = Returned true vars' →
  ∃ ws, covers terms (bytes text) ws ∧
        (capturing terms = true → vars' = bind vars (captures terms ws)).
Proof.
  unfold Match, pattern_of. rewrite bytes_str. intros Hwf Hm.
  eapply loop_sound in Hm as (ws & Hsp & Hv); [|done|apply Inv_init].
  exists ws. split; [|done]. by apply spans_covers in Hsp.
Qed.

(** ** Keys of the capture list *)

Lemma Vars_Set_fresh vars k v :
  k ∉ vars.*1 → Vars_Set vars k v = vars ++ [(k, v)].
Proof.
  induction vars as [|[k0 v0] vars IH]; simpl; [done|].
  rewrite not_elem_of_cons. intros [Hne Hk].
  destruct (String.eqb k0 k) eqn:E.
  - apply String.eqb_eq in E. congruence.
  - by rewrite IH.
Qed.

Lemma Vars_Set_keys vars k v x :
  x ∈ (Vars_Set vars k v).*1 ↔ x ∈ vars.*1 ∨ x = k.
Proof.
  induction vars as [|[k0 v0] vars IH]; simpl.
  - rewrite list_elem_of_singleton, elem_of_nil. tauto.
  - destruct (String.eqb k0 k) eqn:E; simpl.
    + apply String.eqb_eq in E as ->. rewrite !elem_of_cons. tauto.
    + rewrite !elem_of_cons, IH. tauto.
Qed.

Lemma Vars_Set_NoDup vars k v : NoDup vars.*1 → NoDup (Vars_Set vars k v).*1.
Proof.
  induction vars as [|[k0 v0] vars IH]; simpl.
  - intros _. apply NoDup_singleton.
  - rewrite NoDup_cons. intros [Hk0 Hnd].
    destruct (String.eqb k0 k) eqn:E; simpl.
    + apply String.eqb_eq in E as ->. by apply NoDup_cons.
    + apply String.eqb_neq in E. apply NoDup_cons. split; [|auto].
      rewrite Vars_Set_keys. intros [?|?]; done.
Qed.

Lemma bind_keys vars caps x :
  x ∈ (bind vars caps).*1 ↔ x ∈ vars.*1 ∨ x ∈ caps.*1.
Proof.
  revert vars. induction caps as [|[k v] caps IH]; intros vars; simpl.
  - rewrite elem_of_nil. tauto.
  - change (bind vars ((k, v) :: caps)) with (bind (Vars_Set vars k v) caps).
    rewrite IH, Vars_Set_keys, elem_of_cons. tauto.
Qed.

Lemma bind_NoDup vars caps : NoDup vars.*1 → NoDup (bind vars caps).*1.
Proof.
  revert vars. induction caps as [|[k v] caps IH]; intros vars Hnd; [done|].
  apply IH. by apply Vars_Set_NoDup.
Qed.

Lemma bind_distinct vars caps :
  NoDup (vars.*1 ++ caps.*1) → bind vars caps = vars ++ caps.
Proof.
  revert vars. induction caps as [|[k v] caps IH]; intros vars Hnd; simpl.
  - by rewrite app_nil_r.
  - change (bind vars ((k, v) :: caps)) with (bind (Vars_Set vars k v) caps).
    simpl in Hnd. apply NoDup_app in Hnd as (H1 & H2 & H3).
    apply NoDup_cons in H3 as [H3 H4].
    rewrite Vars_Set_fresh by (intros ?; eapply H2; [done|left]).
    rewrite IH; [by rewrite <- app_assoc|].
    rewrite fmap_app. simpl. rewrite <- app_assoc. simpl.
    apply NoDup_app. split_and!; [done| |by apply NoDup_cons].
    intros x Hx. by apply H2.
Qed.

Lemma captures_keys ts ws k :
  length ws = length ts → k ∈ (captures ts ws).*1 ↔ Named k ∈ ts.
Proof.
  revert ws. induction ts as [|t ts IH]; intros [|w ws] Hl; simplify_eq/=.
  - rewrite !elem_of_nil. tauto.
  - specialize (IH ws Hl).
    destruct t; simpl; rewrite !elem_of_cons, IH; intuition congruence.
Qed.

(** ** The width of a rune *)

Lemma first_size s0 sz lo hi :
  first s0 = Some (sz, (lo, hi)) → sz = 2 ∨ sz = 3 ∨ sz = 4.
Proof. unfold first. intros. repeat case_match; simplify_eq; auto. Qed.

Lemma well_formed_width w rest :
  well_formed w = true → DecodeRuneInString_width (w ++ rest) = length w.
Proof.
  destruct w as [|s0 [|s1 r]]; [done| |].
  - simpl. intros H%N.ltb_lt. unfold first.
    by assert ((N_of_ascii s0 <? 194)%N = true) as -> by (apply N.ltb_lt; lia).
  - unfold well_formed, DecodeRuneInString_width. simpl app.
    destruct (first (N_of_ascii s0)) as [[sz [lo hi]]|] eqn:Hf; [|done].
    intros [[Hl%Nat.eqb_eq Hc1]%andb_prop Hr]%andb_prop. rewrite Hf.
    assert ((length (s0 :: s1 :: r ++ rest) <? sz) = false) as ->.
    { apply Nat.ltb_ge. simpl in *. rewrite length_app. lia. }
    rewrite Hc1. simpl negb. cbv iota.
    apply first_size in Hf. simpl in Hl.
    destruct r as [|s2 [|s3 [|? ?]]]; simpl in *;
      destruct Hf as [-> | [-> | ->]]; try done; simplify_eq/=;
      repeat (apply andb_prop in Hr as [? Hr]);
      repeat match goal with H : cont _ _ _ = true |- _ => rewrite H end;
      done.
Qed.

Lemma width_well_formed s :
  s ≠ [] →
  well_formed (take (DecodeRuneInString_width s) s) = true ∨
  DecodeRuneInString_width s = 1.
Proof.
  intros Hs. destruct s as [|s0 s]; [done|].
  unfold DecodeRuneInString_width.
  destruct (first (N_of_ascii s0)) as [[sz [lo hi]]|] eqn:Hf; [|by right].
  destruct (length (s0 :: s) <? sz) eqn:Hl; [by right|].
  pose proof (first_size _ _ _ _ Hf) as Hsz.
  destruct s as [|s1 s]; [by right|].
  destruct (cont lo hi s1) eqn:H1; [|by right]. simpl negb. cbv iota.
  destruct (sz <=? 2) eqn:H2.
  { left. assert (sz = 2) as -> by (apply Nat.leb_le in H2; lia).
    simpl. by rewrite Hf, H1. }
  destruct s as [|s2 s]; [by right|].
  destruct (cont locb hicb s2) eqn:H3; [|by right]. simpl negb. cbv iota.
  destruct (sz <=? 3) eqn:H4.
  { left. apply Nat.leb_le in H4. apply Nat.leb_gt in H2.
    assert (sz = 3) as -> by lia. simpl. by rewrite Hf, H1, H3. }
  destruct s as [|s3 s]; [by right|].
  destruct (cont locb hicb s3) eqn:H5; [|by right]. simpl negb. cbv iota.
  left. apply Nat.leb_gt in H2, H4. assert (sz = 4) as -> by lia.
  simpl. by rewrite Hf, H1, H3, H5.
Qed.

(** * Properties of [Method.ServeHTTP] *)

(** The byte-wise order on strings is a decidable total order. *)
#[global] Instance string_le_dec s1 s2 : Decision (string_le s1 s2).
Proof. unfold string_le. apply _. Defined.

#[global] Instance string_le_total : Total string_le.
Proof.
  intros s1 s2. unfold string_le.
  destruct (String.leb_total s1 s2) as [->| ->]; simpl; auto.
Qed.

#[global] Instance string_le_antisym : AntiSymm (=) string_le.
Proof.
  intros s1 s2 H1%Is_true_true H2%Is_true_true. by apply String.leb_antisym.
Qed.

Lemma ascii_compare_trans a b c r :
  Ascii.compare a b = r → Ascii.compare b c = r → Ascii.compare a c = r.
Proof.
  unfold Ascii.compare. destruct r.
  - intros ?%N.compare_eq_iff ?%N.compare_eq_iff. apply N.compare_eq_iff. lia.
  - rewrite !N.compare_lt_iff. lia.
  - rewrite !N.compare_gt_iff. lia.
Qed.

Lemma string_compare_trans r s1 s2 s3 :
  String.compare s1 s2 = r → String.compare s2 s3 = r →
  String.compare s1 s3 = r.
Proof.
  revert s2 s3. induction s1 as [|a s1 IH]; intros [|b s2] [|c s3];
    simpl; try congruence.
  destruct (Ascii.compare a b) eqn:Hab, (Ascii.compare b c) eqn:Hbc;
    try congruence.
  - apply Ascii.compare_eq_iff in Hab as ->, Hbc as ->.
    rewrite (proj2 (N.compare_eq_iff _ _) eq_refl : Ascii.compare c c = Eq).
    apply IH.
  - apply Ascii.compare_eq_iff in Hab as ->. by rewrite Hbc.
  - apply Ascii.compare_eq_iff in Hab as ->. by rewrite Hbc.
  - apply Ascii.compare_eq_iff in Hbc as <-. by rewrite Hab.
  - by rewrite (ascii_compare_trans _ _ _ _ Hab Hbc).
  - apply Ascii.compare_eq_iff in Hbc as <-. by rewrite Hab.
  - by rewrite (ascii_compare_trans _ _ _ _ Hab Hbc).
Qed.

#[global] Instance string_le_trans : Transitive string_le.
Proof.
  intros s1 s2 s3. unfold string_le, String.leb.
  destruct (String.compare s1 s2) eqn:H12; [| |done];
    destruct (String.compare s2 s3) eqn:H23; try done; intros _ _.
  - by rewrite (string_compare_trans _ _ _ _ H12 H23).
  - apply String.compare_eq_iff in H12 as ->. by rewrite H23.
  - apply String.compare_eq_iff in H23 as <-. by rewrite H12.
  - by rewrite (string_compare_trans _ _ _ _ H12 H23).
Qed.

Section Dispatch.
Variable ToUpper : string → string.
Variable http_Error : string → nat → list call.

Lemma allowed_spec allow keys :
  allowed ToUpper allow keys
  = allow ++ filter (λ k, k ≠ MethodOptions) (ToUpper <$> keys).
Proof.
  revert allow. induction keys as [|k keys IH]; intros allow; simpl.
  - by rewrite app_nil_r.
  - rewrite filter_cons. destruct (decide (ToUpper k ≠ MethodOptions)).
    + by rewrite IH, <- app_assoc.
    + by rewrite IH.
Qed.

Lemma filter_Options_others (l : list string) :
  filter (λ k, k = MethodOptions) (filter (λ k, k ≠ MethodOptions) l) = [].
Proof.
  induction l as [|x l IH]; [done|].
  rewrite (filter_cons (λ k, k ≠ MethodOptions)).
  destruct (decide (x ≠ MethodOptions)); [|done].
  by rewrite filter_cons_False.
Qed.

Lemma allowed_Options_once keys :
  filter (λ k, k = MethodOptions)
         (sort_Strings (allowed ToUpper [MethodOptions] keys))
  = [MethodOptions].
Proof.
  apply Permutation_singleton_r.
  unfold sort_Strings. rewrite merge_sort_Permutation, allowed_spec.
  simpl. by rewrite filter_cons_True, filter_Options_others.
Qed.

Lemma allowed_order keys1 keys2 :
  keys1 ≡ₚ keys2 →
  sort_Strings (allowed ToUpper [MethodOptions] keys1)
  = sort_Strings (allowed ToUpper [MethodOptions] keys2).
Proof.
  intros Hp. unfold sort_Strings.
  apply (Sorted_unique string_le); try apply Sorted_merge_sort; try apply _.
  rewrite !merge_sort_Permutation, !allowed_spec. by rewrite Hp.
Qed.
End Dispatch.

(** * The specification, claim by claim *)

Lemma Match_unfold pattern text vars :
  Match pattern text vars
  = match step (bytes pattern) (bytes text) init vars with
    | Continue c' vars' =>
      loop (bytes pattern) (bytes text)
           ((length (bytes text) + 2) * (length (bytes pattern) + 1)) c' vars'
    | Return b vars' => Returned b vars'
    | Panic => Panicked
    end.
Proof. unfold Match, turns. by rewrite Nat.add_1_r. Qed.

(** C1, as the code has it.  For a pattern whose named terms are each
    followed by a literal or by the end of the pattern, and in which ['}']
    only closes a named term: when [Match] returns true, there is one
    decomposition of the whole text into the spans of the terms, and [vars]
    is the list it was given, updated by [Vars.Set] with each named term's
    span in that decomposition, in pattern order.  From an empty list this is
    one entry for each name of the pattern and no other; when the names are
    distinct it is the list of (name, span) in pattern order. *)
Theorem Match_captures terms text vars vars' :
  wf terms = true → capturing terms = true →
  Match (pattern_of terms) text vars = Returned true vars' →
  ∃ ws, covers terms (bytes text) ws ∧
        vars' = bind vars (captures terms ws) ∧
        (vars = [] →
         NoDup vars'.*1 ∧ (∀ k, k ∈ vars'.*1 ↔ Named k ∈ terms) ∧
         (NoDup (captures terms ws).*1 → vars' = captures terms ws)).
Proof.
  intros Hwf Hcap Hm.
  destruct (Match_sound _ _ _ _ Hwf Hm) as (ws & Hc & Hv).
  specialize (Hv Hcap). exists ws. split_and!; [done..|].
  intros ->. subst vars'. split_and!.
  - apply bind_NoDup. constructor.
  - intros k. rewrite bind_keys, elem_of_nil.
    rewrite captures_keys by (by apply covers_spans in Hc as (_ & ? & _)).
    tauto.
  - intros Hnd. by rewrite bind_distinct.
Qed.

Lemma Match_captures_witness :
  wf [Lit "a"; Named "1"; Lit "/"; Lit "b"] = true ∧
  capturing [Lit "a"; Named "1"; Lit "/"; Lit "b"] = true ∧
  Match (pattern_of [Lit "a"; Named "1"; Lit "/"; Lit "b"]) "abc/b" []
  = Returned true [("1", "bc")] ∧
  ∃ ws, covers [Lit "a"; Named "1"; Lit "/"; Lit "b"] (bytes "abc/b") ws ∧
        [("1", "bc")]
        = bind [] (captures [Lit "a"; Named "1"; Lit "/"; Lit "b"] ws).
Proof.
  split_and!; [vm_compute; reflexivity..|].
  destruct (Match_captures [Lit "a"; Named "1"; Lit "/"; Lit "b"] "abc/b"
                           [] [("1", "bc")])
    as (ws & Hc & Hv & _); [vm_compute; reflexivity..|].
  exists ws. split; assumption.
Defined.

(** C1 as stated fails in both directions.  [Match] never clears [vars] on
    success, so an entry that was there before the call stays although the
    pattern names nothing; the pattern [{a}?] matches [x] without an entry
    for [a]; and a literal ['}'] makes the finalisation bind the empty
    name. *)
Lemma Match_captures_counterexample :
  Match "a" "a" [("x", "y")] = Returned true [("x", "y")] ∧
  Match "{a}?" "x" [] = Returned true [] ∧
  Match "}a" "}a" [] = Returned true [("", "}")] ∧
  ¬ (∀ terms text vars vars',
       wf terms = true →
       Match (pattern_of terms) text vars = Returned true vars' →
       ∀ k, k ∈ vars'.*1 → Named k ∈ terms) ∧
  ¬ (∀ terms text vars vars',
       wf terms = true →
       Match (pattern_of terms) text vars = Returned true vars' →
       ∀ k, Named k ∈ terms → k ∈ vars'.*1).
Proof.
  split_and!; [by vm_compute..| |].
  - intros H.
    specialize (H [Lit "a"] "a" [("x", "y")] [("x", "y")] eq_refl eq_refl "x").
    apply list_elem_of_singleton in H; [done|]. left.
  - intros H.
    specialize (H [Named "a"; Any] "x" [] [] eq_refl eq_refl "a").
    apply elem_of_nil in H; [done|]. left.
Qed.

(** C2.  The code faults on an unterminated named term: [IndexByte] returns
    -1, [nx] becomes [px - 1] and the slice [pattern[px:nx]] is out of
    range; and it faults on the empty pattern with a non-empty text, where
    [pattern[px]] is read at the retry point 0. *)
Theorem Match_malformed_panics text vars :
  Match "{name" text vars = Panicked ∧
  Match "" (String "x" text) vars = Panicked.
Proof. split; by rewrite Match_unfold. Qed.

(** C3.  Whenever [Match] returns false, [vars] is empty. *)
Theorem Match_false_resets pattern text vars vars' :
  Match pattern text vars = Returned false vars' → vars' = [].
Proof. apply loop_false. Qed.

Lemma Match_false_resets_witness :
  Match "a{1}b{2}c" "axbyd" [("k", "v")] = Returned false [] ∧
  ([] : Vars) = [].
Proof.
  split; [vm_compute; reflexivity|].
  apply (Match_false_resets "a{1}b{2}c" "axbyd" [("k", "v")] []).
  vm_compute; reflexivity.
Defined.

(** C4.  The empty pattern matches the empty text; on any non-empty text the
    code does not return false but faults, reading [pattern[0]]. *)
Theorem Match_empty_pattern vars :
  Match "" "" vars = Returned true vars ∧
  ∀ a text, Match "" (String a text) vars = Panicked.
Proof. split; [done|]. intros a text. by rewrite Match_unfold. Qed.

(** C5.  In a successful match the text splits into one span for each term
    of the pattern, and no span of a [*] or [{name}] term contains ['/'];
    [a*/b] does not match [a/c/b] and matches [abc/b]. *)
Theorem Match_wildcards_stop_at_separator :
  (∀ terms text vars vars',
     wf terms = true →
     Match (pattern_of terms) text vars = Returned true vars' →
     ∃ ws, covers terms (bytes text) ws ∧ concat ws = bytes text ∧
           Forall2 (λ t w, wild t = true → "/"%char ∉ w) terms ws) ∧
  (∀ vars, Match "a*/b" "a/c/b" vars = Returned false []) ∧
  (∀ vars, Match "a*/b" "abc/b" vars = Returned true vars).
Proof.
  split_and!; [|done..].
  intros terms text vars vars' Hwf Hm.
  destruct (Match_sound _ _ _ _ Hwf Hm) as (ws & Hc & _).
  exists ws. by destruct (covers_spans _ _ _ Hc) as (? & _ & ?).
Qed.

Lemma Match_wildcards_stop_at_separator_witness :
  wf [Lit "a"; Star; Lit "/"; Lit "b"] = true ∧
  Match (pattern_of [Lit "a"; Star; Lit "/"; Lit "b"]) "abc/b" []
  = Returned true [] ∧
  ∃ ws, covers [Lit "a"; Star; Lit "/"; Lit "b"] (bytes "abc/b") ws ∧
        concat ws = bytes "abc/b" ∧
        Forall2 (λ t w, wild t = true → "/"%char ∉ w)
                [Lit "a"; Star; Lit "/"; Lit "b"] ws.
Proof.
  split_and!; [vm_compute; reflexivity..|].
  apply (proj1 Match_wildcards_stop_at_separator
               [Lit "a"; Star; Lit "/"; Lit "b"] "abc/b" [] []);
    vm_compute; reflexivity.
Defined.

(** C6.  The code at the input on which it leaves the claim.  The text [☺]
    is one code point of three bytes, and [*??] matches it, as [a*??b]
    matches [a☺b].  The first attempt gives the [*] nothing and the first
    [?] the whole code point; the second [?] then finds the text used up,
    and the resume gives the [*] one byte more ([nextTx = tx + 1]), which
    puts the text cursor inside the code point.  From there each of the two
    [?] takes one continuation byte, for which [utf8.DecodeRuneInString]
    reports the width 1, and the call returns true after seven turns.  No
    match of [*??] with [☺] gives every [?] a whole code point.  On the two
    examples of the claim, where no wildcard precedes the [?], the code
    does what the claim says. *)
Theorem question_mark_splits_code_point :
  bytes "☺" = ["226"; "152"; "186"]%char ∧
  well_formed (bytes "☺") = true ∧
  DecodeRuneInString_width (bytes "☺") = 3 ∧
  (∀ vars, Match "*??" "☺" vars = Returned true vars) ∧
  (∀ vars, Match "a*??b" "a☺b" vars = Returned true vars) ∧
  pattern_of [Star; Any; Any] = "*??" ∧
  (¬ ∃ ws, covers [Star; Any; Any] (bytes "☺") ws ∧
           Forall2 (λ t w, t = Any → well_formed w = true)
                   [Star; Any; Any] ws) ∧
  loop (bytes "*??") (bytes "☺") 7 init [] = Returned true [] ∧
  step (bytes "*??") (bytes "☺") (Cursor "" 0 0 2 3 0 1) []
  = Continue (Cursor "" 0 0 0 1 0 1) [] ∧
  step (bytes "*??") (bytes "☺") (Cursor "" 0 0 1 1 0 2) []
  = Continue (Cursor "" 0 0 2 2 0 2) [] ∧
  step (bytes "*??") (bytes "☺") (Cursor "" 0 0 2 2 0 2) []
  = Continue (Cursor "" 0 0 3 3 0 2) [] ∧
  (∀ vars, Match "a?b" "a☺b" vars = Returned true vars) ∧
  (∀ vars, Match "a???b" "a☺b" vars = Returned false []).
Proof.
  split_and!; try by vm_compute.
  intros (ws & Hc & HF).
  remember (bytes "☺") as s eqn:Hs. vm_compute in Hs.
  inversion Hc as [| | |ts w s' ws' Hsep Hc' E1 E2 E3|]; subst.
  inversion HF as [|? ? ? ? _ HF']; subst; clear HF.
  destruct w as [|x1 [|x2 [|x3 [|x4 w]]]]; simplify_eq/=;
    inversion Hc' as [| |b ts s'' ws'' Hb Hc'' E1 E2 E3| |]; subst;
    inversion HF' as [|? ? ? ? HA HF'']; subst; clear HF';
    specialize (HA eq_refl); vm_compute in HA; try done;
    vm_compute in Hc'';
    inversion Hc'' as [| |b' ts' s3 ws3 Hb' Hc3 E1 E2 E3| |]; subst;
    inversion HF'' as [|? ? ? ? HA' _]; subst;
    specialize (HA' eq_refl); vm_compute in HA'; done.
Qed.

(** C9.  [Match] ends for every pattern and text: the loop never uses up
    the [turns] it is given, and more turns change nothing.  Every turn
    that continues keeps the cursor bounds and lowers [variant]; a resume
    from the retry point is followed by a turn that saves the next text
    position, which the resume has checked to be at most the length of the
    text. *)
Theorem Match_terminates pattern text vars :
  Match pattern text vars ≠ OutOfFuel ∧
  (∀ n, turns (bytes pattern) (bytes text) ≤ n →
        loop (bytes pattern) (bytes text) n init vars
        = Match pattern text vars) ∧
  (∀ c vs c' vs',
     in_bounds (bytes text) c →
     step (bytes pattern) (bytes text) c vs = Continue c' vs' →
     in_bounds (bytes text) c' ∧
     variant (bytes pattern) (bytes text) c'
     < variant (bytes pattern) (bytes text) c) ∧
  (∀ c vs c1 vs1 c2 vs2,
     retry (bytes pattern) (bytes text) c vs = Continue c1 vs1 →
     step (bytes pattern) (bytes text) c1 vs1 = Continue c2 vs2 →
     nextTx c2 = nextTx c + 1 ∧ nextTx c ≤ length (bytes text)).
Proof.
  destruct (loop_fuel (bytes pattern) (bytes text) _ init vars
              (in_bounds_init _) (variant_init _ _)) as [Hne Hm].
  split_and!; [done|done|..].
  - eauto using step_in_bounds, step_variant.
  - apply resume_advances.
Qed.

Lemma Match_terminates_witness :
  in_bounds (bytes "ab") (Cursor "" 0 0 1 0 0 1) ∧
  retry (bytes "*b") (bytes "ab") (Cursor "" 0 0 1 0 0 1) []
  = Continue (Cursor "" 0 0 0 1 0 1) [] ∧
  step (bytes "*b") (bytes "ab") (Cursor "" 0 0 0 1 0 1) []
  = Continue (Cursor "" 0 0 1 1 0 2) [] ∧
  (2 = 1 + 1 ∧ 1 ≤ length (bytes "ab")) ∧
  loop (bytes "*b") (bytes "ab") 100 init [] = Match "*b" "ab" [].
Proof.
  destruct (Match_terminates "*b" "ab" []) as (_ & Hn & _ & Hr).
  split; [unfold in_bounds; simpl; lia|].
  split; [reflexivity|]. split; [reflexivity|]. split.
  - apply (Hr (Cursor "" 0 0 1 0 0 1) [] (Cursor "" 0 0 0 1 0 1) []
              (Cursor "" 0 0 1 1 0 2) []); reflexivity.
  - apply Hn. vm_compute. lia.
Defined.

(** C10.  Whether [Match] returns true, returns false or faults does not
    depend on what [vars] holds at the call. *)
Theorem Match_ignores_vars pattern text v1 v2 :
  verdict (Match pattern text v1) = verdict (Match pattern text v2) ∧
  faulted (Match pattern text v1) = faulted (Match pattern text v2).
Proof.
  destruct (loop_control (bytes pattern) (bytes text)
              (turns (bytes pattern) (bytes text)) init v1 v2) as [Hv Hp].
  split; [done|]. unfold Match.
  destruct (loop _ _ _ _ v1) eqn:E1, (loop _ _ _ _ v2) eqn:E2;
    simpl in *; try done; by intuition.
Qed.

(** C8.  [ServeHTTP] looks the upper-cased request method up in the table
    and runs the handler it finds.  When there is none, whatever the order
    in which the map yields its keys, it sets the header [Allow] to the
    [", "]-joined list that is sorted byte-wise, holds [OPTIONS] once and,
    besides it, the upper-case form of every registered method that is not
    [OPTIONS]; and it writes a status, 405, exactly when the upper-cased
    request method is not [OPTIONS]. *)
Theorem ServeHTTP_dispatch ToUpper http_Error route keys req :
  (∀ msg code c, WriteHeader c ∈ http_Error msg code ↔ c = code) →
  range_of route keys →
  (∀ keys', range_of route keys' →
            ServeHTTP ToUpper http_Error route keys' req
            = ServeHTTP ToUpper http_Error route keys req) ∧
  match route !! ToUpper (req_Method req) with
  | Some h => ServeHTTP ToUpper http_Error route keys req = h req
  | None =>
    ∃ allow,
      Sorted string_le allow ∧
      allow ≡ₚ MethodOptions
               :: filter (λ k, k ≠ MethodOptions)
                         (ToUpper <$> (map_to_list route).*1) ∧
      filter (λ k, k = MethodOptions) allow = [MethodOptions] ∧
      ServeHTTP ToUpper http_Error route keys req
      = HeaderSet "Allow" (Join allow ", ")
        :: (if decide (ToUpper (req_Method req) = MethodOptions) then []
            else http_Error "405 method not allowed" StatusMethodNotAllowed) ∧
      (∀ code, WriteHeader code ∈ ServeHTTP ToUpper http_Error route keys req
               ↔ code = StatusMethodNotAllowed ∧
                 ToUpper (req_Method req) ≠ MethodOptions)
  end.
Proof.
  intros Herr Hkeys. split.
  { intros keys' Hkeys'. unfold ServeHTTP.
    destruct (route !! ToUpper (req_Method req)) as [h|]; [done|].
    rewrite (allowed_order ToUpper keys' keys); [done|].
    unfold range_of in *. by rewrite Hkeys, Hkeys'. }
  unfold ServeHTTP.
  destruct (route !! ToUpper (req_Method req)) as [h|]; [done|].
  exists (sort_Strings (allowed ToUpper [MethodOptions] keys)).
  split_and!.
  - apply Sorted_merge_sort, _.
  - unfold sort_Strings. rewrite merge_sort_Permutation, allowed_spec.
    simpl. by rewrite Hkeys.
  - apply allowed_Options_once.
  - by destruct (decide (ToUpper (req_Method req) = MethodOptions)),
               (decide (ToUpper (req_Method req) ≠ MethodOptions)).
  - intros code. rewrite elem_of_cons.
    destruct (decide (ToUpper (req_Method req) ≠ MethodOptions)) as [Hm|Hm].
    + rewrite Herr. intuition congruence.
    + rewrite elem_of_nil. intuition congruence.
Qed.

Lemma ServeHTTP_dispatch_witness :
  (∀ msg code c, WriteHeader c ∈ net_http_Error msg code ↔ c = code) ∧
  range_of (<["GET" := λ _, [WriteHeader 200]]>
              (<["put" := λ _, [WriteHeader 200]]> ∅)) ["put"; "GET"] ∧
  ServeHTTP ascii_ToUpper net_http_Error
            (<["GET" := λ _, [WriteHeader 200]]>
               (<["put" := λ _, [WriteHeader 200]]> ∅)) ["put"; "GET"]
            {| req_Method := "options" |}
  = [HeaderSet "Allow" "GET, OPTIONS, PUT"] ∧
  (∀ code,
     WriteHeader code
     ∈ ServeHTTP ascii_ToUpper net_http_Error
                 (<["GET" := λ _, [WriteHeader 200]]>
                    (<["put" := λ _, [WriteHeader 200]]> ∅)) ["put"; "GET"]
                 {| req_Method := "delete" |}
     ↔ code = StatusMethodNotAllowed ∧
       ascii_ToUpper "delete" ≠ MethodOptions).
Proof.
  assert (∀ msg code c, WriteHeader c ∈ net_http_Error msg code ↔ c = code)
    as Herr.
  { intros msg code c. unfold net_http_Error.
    rewrite !elem_of_cons, elem_of_nil. intuition congruence. }
  assert (range_of (<["GET" := λ _, [WriteHeader 200]]>
                      (<["put" := λ _, [WriteHeader 200]]> ∅))
                   ["put"; "GET"]) as Hr.
  { unfold range_of. vm_compute. apply Permutation_swap. }
  split; [exact Herr|]. split; [exact Hr|].
  split; [vm_compute; reflexivity|].
  pose proof (ServeHTTP_dispatch ascii_ToUpper net_http_Error _ _
                {| req_Method := "delete" |} Herr Hr) as H.
  destruct H as [_ H].
  destruct (_ !! _) eqn:E in H; [vm_compute in E; discriminate|].
  destruct H as (allow & _ & _ & _ & _ & H). exact H.
Defined.

(** * Beyond the claims *)

(** * Further properties of [Vars] *)

Lemma Vars_Get_Set_ne vars k v k' :
  k' ≠ k → Vars_Get (Vars_Set vars k v) k' = Vars_Get vars k'.
Proof.
  intros Hne.
  assert (String.eqb k k' = false) as Hb by (apply String.eqb_neq; congruence).
  induction vars as [|[k0 v0] vars IH]; simpl.
  - by rewrite Hb.
  - destruct (String.eqb k0 k) eqn:E; simpl.
    + apply String.eqb_eq in E as ->. by rewrite Hb.
    + by rewrite IH.
Qed.

Lemma Vars_Set_bound vars k v :
  k ∈ vars.*1 → (Vars_Set vars k v).*1 = vars.*1.
Proof.
  induction vars as [|[k0 v0] vars IH]; simpl.
  - by intros ?%elem_of_nil.
  - destruct (String.eqb k0 k) eqn:E; simpl.
    + by apply String.eqb_eq in E as ->.
    + apply String.eqb_neq in E. rewrite elem_of_cons.
      intros [?|?]; [congruence|]. f_equal. by apply IH.
Qed.

Lemma Vars_Set_other vars k v i k0 v0 :
  vars !! i = Some (k0, v0) → k0 ≠ k → Vars_Set vars k v !! i = Some (k0, v0).
Proof.
  revert i. induction vars as [|[k1 v1] vars IH]; intros i; [done|].
  simpl. destruct (String.eqb k1 k) eqn:E.
  - apply String.eqb_eq in E as ->. destruct i; simpl; [congruence|done].
  - destruct i; simpl; [done|]. apply IH.
Qed.

Lemma Vars_Set_comm vars k v k' v' :
  k ≠ k' → k ∈ vars.*1 ∨ k' ∈ vars.*1 →
  Vars_Set (Vars_Set vars k v) k' v' = Vars_Set (Vars_Set vars k' v') k v.
Proof.
  intros Hne. induction vars as [|[k0 v0] vars IH]; simpl.
  - rewrite !elem_of_nil. tauto.
  - rewrite !elem_of_cons. intros Hin.
    destruct (String.eqb k0 k) eqn:E, (String.eqb k0 k') eqn:E'; simpl.
    + apply String.eqb_eq in E, E'. congruence.
    + apply String.eqb_eq in E as ->.
      apply String.eqb_neq in Hne as Hb. by rewrite Hb, String.eqb_refl.
    + apply String.eqb_eq in E' as ->.
      assert (String.eqb k' k = false) as Hb
        by (apply String.eqb_neq; congruence).
      by rewrite Hb, String.eqb_refl.
    + rewrite E, E'. f_equal. apply IH.
      apply String.eqb_neq in E, E'. destruct Hin as [[?|?]|[?|?]]; auto;
        congruence.
Qed.

Lemma Vars_Get_unbound vars k : k ∉ vars.*1 → Vars_Get vars k = "".
Proof.
  induction vars as [|[k0 v0] vars IH]; simpl; [done|].
  rewrite not_elem_of_cons. intros [Hne Hk].
  apply not_eq_sym, String.eqb_neq in Hne. rewrite Hne. auto.
Qed.

Lemma Vars_Get_bound vars k v :
  NoDup vars.*1 → (k, v) ∈ vars → Vars_Get vars k = v.
Proof.
  induction vars as [|[k0 v0] vars IH]; simpl.
  - by intros _ ?%elem_of_nil.
  - rewrite NoDup_cons, elem_of_cons. intros [Hk0 Hnd] [Heq|Hin].
    + simplify_eq. by rewrite String.eqb_refl.
    + destruct (String.eqb k0 k) eqn:E; [|auto].
      apply String.eqb_eq in E as ->. destruct Hk0.
      apply list_elem_of_fmap. by exists (k, v).
Qed.

(** X1.  [Get] after [Set] gives the value just set for the key set and
    what it gave before for every other key. *)
Theorem Vars_Get_after_Set vars k v k' :
  Vars_Get (Vars_Set vars k v) k'
  = if decide (k' = k) then v else Vars_Get vars k'.
Proof.
  destruct (decide (k' = k)) as [->|Hne].
  - apply Vars_Get_Set.
  - by apply Vars_Get_Set_ne.
Qed.

(** X2.  [Set] keeps the keys in their order: a bound key keeps its place,
    a new key goes to the end, unique keys stay unique, and a pair with
    another key is left where it was. *)
Theorem Vars_Set_in_place vars k v :
  (Vars_Set vars k v).*1
  = (if decide (k ∈ vars.*1) then vars.*1 else vars.*1 ++ [k]) ∧
  (NoDup vars.*1 → NoDup (Vars_Set vars k v).*1) ∧
  (∀ i k0 v0, vars !! i = Some (k0, v0) → k0 ≠ k →
              Vars_Set vars k v !! i = Some (k0, v0)).
Proof.
  split_and!.
  - destruct (decide (k ∈ vars.*1)) as [Hin|Hin].
    + by apply Vars_Set_bound.
    + rewrite Vars_Set_fresh by done. by rewrite fmap_app.
  - apply Vars_Set_NoDup.
  - intros i k0 v0. apply Vars_Set_other.
Qed.

Lemma Vars_Set_in_place_witness :
  NoDup [("a", "1"); ("b", "2")].*1 ∧
  [("a", "1"); ("b", "2")] !! 0 = Some ("a", "1") ∧ "a" ≠ "b" ∧
  NoDup (Vars_Set [("a", "1"); ("b", "2")] "b" "3").*1 ∧
  Vars_Set [("a", "1"); ("b", "2")] "b" "3" !! 0 = Some ("a", "1").
Proof.
  destruct (Vars_Set_in_place [("a", "1"); ("b", "2")] "b" "3")
    as (_ & Hnd & Hother).
  assert (NoDup [("a", "1"); ("b", "2")].*1) as H0.
  { simpl. apply NoDup_cons. split.
    - rewrite list_elem_of_singleton. discriminate.
    - apply NoDup_singleton. }
  split; [exact H0|]. split; [reflexivity|]. split; [discriminate|].
  split; [exact (Hnd H0)|].
  apply (Hother 0 "a" "1"); [reflexivity|discriminate].
Defined.

(** X3.  A second [Set] of a key replaces the first, and two [Set]s of
    different keys can be swapped when one of the keys is already bound
    (when neither is, the order of the calls is the order of the new
    pairs). *)
Theorem Vars_Set_compose vars k v v' k' :
  Vars_Set (Vars_Set vars k v) k v' = Vars_Set vars k v' ∧
  (k ≠ k' → k ∈ vars.*1 ∨ k' ∈ vars.*1 →
   Vars_Set (Vars_Set vars k v) k' v' = Vars_Set (Vars_Set vars k' v') k v) ∧
  (k ≠ k' →
   Vars_Set (Vars_Set [] k v) k' v' ≠ Vars_Set (Vars_Set [] k' v') k v).
Proof.
  split_and!.
  - apply Vars_Set_Set.
  - apply Vars_Set_comm.
  - intros Hne. simpl.
    apply String.eqb_neq in Hne as Hb. rewrite Hb.
    assert (String.eqb k' k = false) as ->
      by (apply String.eqb_neq; congruence).
    congruence.
Qed.

Lemma Vars_Set_compose_witness :
  "a" ≠ "b" ∧ ("a" ∈ [("b", "0")].*1 ∨ "b" ∈ [("b", "0")].*1) ∧
  Vars_Set (Vars_Set [("b", "0")] "a" "1") "b" "2"
  = Vars_Set (Vars_Set [("b", "0")] "b" "2") "a" "1" ∧
  Vars_Set (Vars_Set [] "a" "1") "b" "2"
  ≠ Vars_Set (Vars_Set [] "b" "2") "a" "1".
Proof.
  destruct (Vars_Set_compose [("b", "0")] "a" "1" "2" "b") as (_ & Hc & Hn).
  assert ("a" ≠ "b") as Hne by discriminate.
  assert ("a" ∈ [("b", "0")].*1 ∨ "b" ∈ [("b", "0")].*1) as Hin.
  { right. simpl. apply list_elem_of_singleton. reflexivity. }
  split; [exact Hne|]. split; [exact Hin|].
  split; [exact (Hc Hne Hin)|exact (Hn Hne)].
Defined.

(** X4.  [Get] of a key that is not bound gives the empty string; after
    [Reset] no key is bound, and a [Set] then leaves exactly its pair. *)
Theorem Vars_Get_unbound_empty vars k v :
  (k ∉ vars.*1 → Vars_Get vars k = "") ∧
  Vars_Get (Vars_Reset vars) k = "" ∧
  Vars_Set (Vars_Reset vars) k v = [(k, v)].
Proof. split_and!; [apply Vars_Get_unbound|done..]. Qed.

Lemma Vars_Get_unbound_empty_witness :
  ("c" ∉ [("a", "1"); ("b", "2")].*1) ∧
  Vars_Get [("a", "1"); ("b", "2")] "c" = "".
Proof.
  assert ("c" ∉ [("a", "1"); ("b", "2")].*1) as Hc.
  { simpl. rewrite !not_elem_of_cons. split_and!; try discriminate.
    apply not_elem_of_nil. }
  split; [exact Hc|].
  exact (proj1 (Vars_Get_unbound_empty [("a", "1"); ("b", "2")] "c" "") Hc).
Defined.

(** X5.  In a list with unique keys [Get] gives the value of the pair that
    holds the key. *)
Theorem Vars_Get_finds vars k v :
  NoDup vars.*1 → (k, v) ∈ vars → Vars_Get vars k = v.
Proof. apply Vars_Get_bound. Qed.

Lemma Vars_Get_finds_witness :
  NoDup [("a", "1"); ("b", "2")].*1 ∧
  ("b", "2") ∈ [("a", "1"); ("b", "2")] ∧
  Vars_Get [("a", "1"); ("b", "2")] "b" = "2".
Proof.
  assert (NoDup [("a", "1"); ("b", "2")].*1) as H0.
  { simpl. apply NoDup_cons. split.
    - rewrite list_elem_of_singleton. discriminate.
    - apply NoDup_singleton. }
  assert (("b", "2") ∈ [("a", "1"); ("b", "2")]) as H1.
  { right. left. }
  split; [exact H0|]. split; [exact H1|].
  exact (Vars_Get_finds _ _ _ H0 H1).
Defined.

(** * Further properties of [Method] *)

Section Singleton.
Variable ToUpper : string → string.
Variable http_Error : string → nat → list call.

Lemma range_of_singleton k (h : Handler) keys :
  range_of {[k := h]} keys → keys = [k].
Proof.
  unfold range_of. rewrite map_to_list_singleton. simpl.
  intros H. symmetry in H. by apply Permutation_singleton_l in H.
Qed.

(** A table with one handler, registered under its upper-case name. *)
Lemma ServeHTTP_singleton k h keys req :
  ToUpper k = k → k ≠ MethodOptions → range_of {[k := h]} keys →
  ServeHTTP ToUpper http_Error {[k := h]} keys req
  = if decide (ToUpper (req_Method req) = k) then h req
    else HeaderSet "Allow" (Join (sort_Strings [MethodOptions; k]) ", ")
         :: (if decide (ToUpper (req_Method req) = MethodOptions) then []
             else http_Error "405 method not allowed"
                             StatusMethodNotAllowed).
Proof.
  intros Hk Hne ->%range_of_singleton. unfold ServeHTTP.
  destruct (decide (ToUpper (req_Method req) = k)) as [->|Hm].
  - by rewrite lookup_singleton_eq.
  - rewrite lookup_singleton_ne by done. simpl. rewrite Hk.
    destruct (decide (k ≠ MethodOptions)); [|done]. simpl.
    by destruct (decide (ToUpper (req_Method req) = MethodOptions)),
               (decide (ToUpper (req_Method req) ≠ MethodOptions)).
Qed.
End Singleton.

(** X6.  A table made by [Get], [Post] or [Put] runs its handler for the
    method in any letter case that upper-cases to it, and answers every
    other method with [Allow] listing that method and [OPTIONS], and with
    405 unless the request is [OPTIONS]. *)
Theorem constructors_dispatch ToUpper http_Error h keys req :
  ToUpper "GET" = "GET" → ToUpper "POST" = "POST" → ToUpper "PUT" = "PUT" →
  let fallback allow :=
    HeaderSet "Allow" allow
    :: (if decide (ToUpper (req_Method req) = MethodOptions) then []
        else http_Error "405 method not allowed" StatusMethodNotAllowed) in
  (range_of (Get h) keys →
   ServeHTTP ToUpper http_Error (Get h) keys req
   = if decide (ToUpper (req_Method req) = "GET") then h req
     else fallback "GET, OPTIONS") ∧
  (range_of (Post h) keys →
   ServeHTTP ToUpper http_Error (Post h) keys req
   = if decide (ToUpper (req_Method req) = "POST") then h req
     else fallback "OPTIONS, POST") ∧
  (range_of (Put h) keys →
   ServeHTTP ToUpper http_Error (Put h) keys req
   = if decide (ToUpper (req_Method req) = "PUT") then h req
     else fallback "OPTIONS, PUT").
Proof.
  intros HG HP HU. unfold Get, Post, Put. simpl.
  split_and!; intros Hr; rewrite ServeHTTP_singleton by done; reflexivity.
Qed.

Lemma constructors_dispatch_witness :
  ascii_ToUpper "GET" = "GET" ∧ ascii_ToUpper "POST" = "POST" ∧
  ascii_ToUpper "PUT" = "PUT" ∧
  range_of (Get (λ _, [WriteHeader 200])) ["GET"] ∧
  ServeHTTP ascii_ToUpper net_http_Error (Get (λ _, [WriteHeader 200]))
            ["GET"] {| req_Method := "get" |}
  = [WriteHeader 200] ∧
  ServeHTTP ascii_ToUpper net_http_Error (Get (λ _, [WriteHeader 200]))
            ["GET"] {| req_Method := "Options" |}
  = [HeaderSet "Allow" "GET, OPTIONS"].
Proof.
  assert (range_of (Get (λ _, [WriteHeader 200])) ["GET"]) as Hr.
  { unfold range_of, Get. by rewrite map_to_list_singleton. }
  split; [reflexivity|]. split; [reflexivity|]. split; [reflexivity|].
  split; [exact Hr|]. split.
  - rewrite (proj1 (constructors_dispatch ascii_ToUpper net_http_Error
                      (λ _, [WriteHeader 200]) ["GET"]
                      {| req_Method := "get" |}
                      eq_refl eq_refl eq_refl) Hr).
    reflexivity.
  - rewrite (proj1 (constructors_dispatch ascii_ToUpper net_http_Error
                      (λ _, [WriteHeader 200]) ["GET"]
                      {| req_Method := "Options" |}
                      eq_refl eq_refl eq_refl) Hr).
    reflexivity.
Defined.

(** X7.  A handler registered under a name that is not its own upper-case
    form is not reached: a request for the upper-case form is answered
    with 405, while [Allow] lists that very form. *)
Theorem lowercase_key_not_served ToUpper http_Error k h req :
  ToUpper k ≠ k → ToUpper k ≠ MethodOptions →
  ToUpper (req_Method req) = ToUpper k →
  ServeHTTP ToUpper http_Error {[k := h]} [k] req
  = HeaderSet "Allow" (Join (sort_Strings [MethodOptions; ToUpper k]) ", ")
    :: http_Error "405 method not allowed" StatusMethodNotAllowed.
Proof.
  intros Hk Ho Hm. unfold ServeHTTP. rewrite Hm.
  rewrite lookup_singleton_ne by done. simpl.
  destruct (decide (ToUpper k ≠ MethodOptions)); done.
Qed.

Lemma lowercase_key_not_served_witness :
  ascii_ToUpper "get" ≠ "get" ∧ ascii_ToUpper "get" ≠ MethodOptions ∧
  ascii_ToUpper "GET" = ascii_ToUpper "get" ∧
  ServeHTTP ascii_ToUpper net_http_Error {["get" := λ _, [WriteHeader 200]]}
            ["get"] {| req_Method := "GET" |}
  = HeaderSet "Allow" "GET, OPTIONS"
    :: net_http_Error "405 method not allowed" 405.
Proof.
  split; [discriminate|]. split; [discriminate|]. split; [reflexivity|].
  apply (lowercase_key_not_served ascii_ToUpper net_http_Error "get"
           (λ _, [WriteHeader 200]) {| req_Method := "GET" |});
    [discriminate|discriminate|reflexivity].
Defined.

(** * [Match] does not fault on a pattern of the grammar *)

Section Safety.
Variable text : list ascii.

Lemma retry_not_Panic pattern c vars :
  safe pattern c →
  (px c = 0 → ∃ a, pattern !! 0 = Some a ∧ isWild a = false) →
  retry pattern text c vars ≠ Panic.
Proof.
  intros [Hlt Hzero] Hpx. unfold retry.
  destruct (nextTx c <=? length text) eqn:Hle; [|done].
  apply Nat.leb_le in Hle.
  destruct (lookup_lt_is_Some_2 pattern (nextPx c) Hlt) as [a Ha].
  rewrite Ha. destruct (isWild a) eqn:Hw; [|done].
  destruct (nextTx c) as [|i] eqn:Hn.
  - destruct (Hzero eq_refl) as [H0 [Hp|(b & Hb & Hwb)]].
    + destruct (Hpx Hp) as (b & Hb & Hwb). rewrite H0 in Ha. congruence.
    + rewrite H0 in Ha. congruence.
  - destruct (lookup_lt_is_Some_2 text i) as [b Hb]; [lia|].
    rewrite Hb. by destruct (negb _).
Qed.

Lemma finalize_is_Some pattern c vars :
  px c ≤ length pattern → vx c ≤ tx c → tx c ≤ length text →
  is_Some (finalize pattern text c vars).
Proof.
  intros Hpx Hvx Htx. unfold finalize.
  destruct (px c) as [|i]; [done|].
  destruct (lookup_lt_is_Some_2 pattern i) as [a Ha]; [lia|].
  rewrite Ha. simpl. destruct (Ascii.eqb a "}"); [|done].
  by rewrite slice_sub.
Qed.

(** [safe] is kept by every turn. *)
Lemma step_safe pattern c vars c' vars' :
  safe pattern c → step pattern text c vars = Continue c' vars' →
  safe pattern c'.
Proof.
  intros [Hlt Hzero].
  assert (retry pattern text c vars = Continue c' vars' → safe pattern c')
    as Hretry.
  { intros (e & b & He & _ & _ & _ & _ & ->)%retry_resume.
    split; simpl; [done|lia]. }
  unfold step. destruct (_ || _); [|by destruct finalize].
  destruct (pattern !! px c) as [a|] eqn:Ha; [|done].
  pose proof (lookup_lt_Some _ _ _ Ha) as Hpx.
  assert (isWild a = false →
          safe pattern (Cursor (key c) (nx c) (vx c) (px c + 1) (tx c + 1)
                               (nextPx c) (nextTx c)) ∧
          ∀ n, safe pattern (Cursor (key c) (nx c) (vx c) (px c + 1) n
                                    (nextPx c) (nextTx c))) as Hadv.
  { intros Hw.
    assert (∀ n, safe pattern (Cursor (key c) (nx c) (vx c) (px c + 1) n
                                      (nextPx c) (nextTx c))) as H;
      [|by split].
    intros n. split; simpl; [done|]. intros Hn.
    destruct (Hzero Hn) as [H0 [Hp|Hp]]; split; try done; right; [|done].
    exists a. by rewrite <- Hp. }
  destruct (Ascii.eqb a "?") eqn:Hq.
  { apply Ascii.eqb_eq in Hq as ->.
    intros [(b & _ & _ & _ & ->)|Hr]%single_Continue; [|auto].
    by apply Hadv. }
  destruct (isWild a) eqn:Hw.
  { unfold wildcard. intros H.
    repeat case_match; simplify_eq; split; simpl; try done; lia. }
  intros [(_ & _ & ->)|Hr]%literal_Continue; [|auto]. by apply Hadv.
Qed.

Lemma render_prefix_le (pre rest : list term) :
  length (render pre) ≤ length (render (pre ++ rest)).
Proof. rewrite render_app, length_app. lia. Qed.

Lemma head_byte_rigid t :
  wf_term t = true → rigid t = true → isWild (head_byte t) = false.
Proof.
  destruct t as [a| | |k]; try done. simpl.
  by intros [_ ?%negb_true_iff]%andb_prop.
Qed.

(** Under the invariant no turn faults. *)
Lemma step_not_Panic terms c vars vars0 :
  wf terms = true → Inv terms text vars0 c vars → safe (render terms) c →
  step (render terms) text c vars ≠ Panic.
Proof.
  intros Hwf HI Hsafe.
  assert (∀ pre t rest, terms = pre ++ t :: rest → rigid t = true →
            px c = length (render pre) →
            vx c ≤ tx c → tx c ≤ length text →
            step (render terms) text c vars ≠ Panic) as Hrigid.
  { intros pre t rest Ht Hr Hpx Hvx Htx.
    pose proof Hwf as Hwt. rewrite Ht in Hwt. apply wf_elem in Hwt.
    assert (retry (render terms) text c vars ≠ Panic) as Hretry.
    { apply retry_not_Panic; [done|]. intros Hp. exists (head_byte t).
      rewrite Hp in Hpx. symmetry in Hpx. apply render_nil_inv in Hpx as ->.
      split; [|by apply head_byte_rigid].
      rewrite Ht. apply (render_lookup_head [] t rest). }
    rewrite Ht, step_term by done. rewrite <- Ht.
    destruct t as [a| | |k]; try done.
    - unfold literal. destruct (text !! tx c) as [b|]; [|done].
      destruct (Ascii.eqb b a); [|done].
      destruct (finalize_is_Some (render terms) c vars) as [v ->]; try done.
      rewrite Hpx, Ht. apply render_prefix_le.
    - unfold single. destruct (text !! tx c) as [b|]; [|done].
      by destruct (negb _). }
  assert (∀ pre, terms = pre → px c = length (render pre) → terms ≠ [] →
            vx c ≤ tx c → tx c ≤ length text →
            step (render terms) text c vars ≠ Panic) as Hend.
  { intros pre <- Hpx Hne Hvx Htx. rewrite step_end by lia.
    destruct (_ <? _).
    - apply retry_not_Panic; [done|]. intros Hp. rewrite Hp in Hpx.
      symmetry in Hpx. by apply render_nil_inv in Hpx.
    - destruct (finalize_is_Some (render terms) c vars) as [v ->];
        try done; lia. }
  assert (terms ≠ []) as Hne.
  { intros ->. destruct Hsafe as [Hlt _]. simpl in Hlt. lia. }
  destruct HI as [mid rest ws Ht Hrig Hsp Hpx Hntx Hnx Hvx Hvars
                 |pre W mid rest w0 e ws wsm pend Ht HW Hrig Hsp Hw0 Hsep
                      Hmid Hpx Hnpx Hntx Hbr Hvars
                 |pre W rest w0 ws pend Ht HW Hsp Hw0 Htx Hsep Hpx Hnpx
                      Hntx Hbr Hvars].
  - apply spans_le in Hsp as [_ Htx].
    destruct rest as [|t rest].
    { rewrite app_nil_r in Ht. eapply Hend; eauto; lia. }
    pose proof Hwf as Hwt. rewrite Ht in Hwt. apply wf_elem in Hwt.
    destruct (rigid t) eqn:Hr; [eapply Hrigid; eauto; lia|].
    destruct t as [a| | |k]; try done.
    + by rewrite Ht, step_Star.
    + by rewrite Ht, step_Named_first by (done || lia).
  - pose proof (spans_le _ _ _ _ _ Hmid) as [He Htx].
    rewrite Hnpx in Hbr.
    pose proof (brace_behind _ _ mid _ _ Hbr) as [Hnx Hvx].
    assert (terms = (pre ++ W :: mid) ++ rest) as Ht'
      by (by rewrite Ht, <- app_assoc).
    destruct rest as [|t rest].
    { rewrite app_nil_r in Ht'. eapply Hend; eauto; lia. }
    pose proof Hwf as Hwt. rewrite Ht' in Hwt. apply wf_elem in Hwt.
    destruct (rigid t) eqn:Hr; [eapply Hrigid; eauto; lia|].
    destruct t as [a| | |k]; try done.
    + by rewrite Ht', step_Star.
    + by rewrite Ht', step_Named_first by (done || lia).
  - pose proof Hwf as Hwt. rewrite Ht in Hwt. apply wf_elem in Hwt.
    destruct W as [a| | |k]; try done.
    + by rewrite Ht, step_Star.
    + destruct Hbr as (Hnx & Hk & _).
      by rewrite Ht, step_Named_again.
Qed.

Lemma loop_not_Panicked terms n c vars vars0 :
  wf terms = true → Inv terms text vars0 c vars → safe (render terms) c →
  loop (render terms) text n c vars ≠ Panicked.
Proof.
  intros Hwf. revert c vars. induction n as [|n IH]; intros c vars HI Hs;
    simpl; [done|].
  pose proof (step_not_Panic _ _ _ _ Hwf HI Hs) as Hp.
  destruct (step (render terms) text c vars) as [c1 vars1|b vars1|] eqn:Hst;
    [|done..].
  apply IH; [by eapply Inv_step|by eapply step_safe].
Qed.
End Safety.

Lemma safe_init terms : terms ≠ [] → safe (render terms) init.
Proof.
  intros Hne. split; simpl; [|auto].
  destruct terms as [|t ts]; [done|]. rewrite render_cons, length_app.
  pose proof (render_term_length t). lia.
Qed.

Lemma Match_Returned terms text vars :
  wf terms = true → terms ≠ [] →
  ∃ b vars', Match (pattern_of terms) text vars = Returned b vars'.
Proof.
  intros Hwf Hne.
  pose proof (loop_fuel (bytes (pattern_of terms)) (bytes text) _ init vars
                (in_bounds_init _) (variant_init _ _)) as [Hfuel _].
  pose proof (loop_not_Panicked (bytes text) terms
                (turns (render terms) (bytes text)) init vars vars
                Hwf (Inv_init _ _ _) (safe_init _ Hne)) as Hp.
  unfold Match in *. unfold pattern_of in *. rewrite bytes_str in *.
  destruct (loop _ _ _ _ _) as [b vars'| |]; [eauto|done..].
Qed.

(** X8.  On a non-empty pattern of the documented grammar [Match] never
    faults: it returns true or false for every text and every [vars]. *)
Theorem Match_returns terms text vars :
  wf terms = true → terms ≠ [] →
  ∃ b vars', Match (pattern_of terms) text vars = Returned b vars'.
Proof. apply Match_Returned. Qed.

Lemma Match_returns_witness :
  wf [Lit "a"; Named "1"; Any; Star] = true ∧
  [Lit "a"; Named "1"; Any; Star] ≠ [] ∧
  ∃ b vars',
    Match (pattern_of [Lit "a"; Named "1"; Any; Star]) "a/b" [] =
    Returned b vars'.
Proof.
  split; [reflexivity|]. split; [discriminate|].
  apply (Match_returns [Lit "a"; Named "1"; Any; Star] "a/b" []);
    [reflexivity|discriminate].
Defined.

(** * [Match] finds every match of a pattern without ['?'] *)

Lemma elem_of_sub (s : list ascii) i j x :
  x ∈ sub s i j ↔ ∃ n, i ≤ n ∧ n < j ∧ s !! n = Some x.
Proof.
  unfold sub. rewrite list_elem_of_lookup. split.
  - intros [k Hk]. apply lookup_take_Some in Hk as [Hk Hlt].
    rewrite lookup_drop in Hk. exists (i + k). split_and!; [lia|lia|done].
  - intros (n & Hi & Hj & Hn). exists (n - i).
    apply lookup_take_Some. split; [|lia].
    rewrite lookup_drop. by replace (i + (n - i)) with n by lia.
Qed.

Lemma sep_free_mono (s : list ascii) i j i' j' :
  i ≤ i' → j' ≤ j → "/"%char ∉ sub s i j → "/"%char ∉ sub s i' j'.
Proof.
  rewrite !elem_of_sub. intros Hi Hj Hn (n & ? & ? & ?). apply Hn.
  exists n. split_and!; [lia|lia|done].
Qed.

Lemma sep_free_app (s : list ascii) i m j :
  "/"%char ∉ sub s i m → "/"%char ∉ sub s m j → "/"%char ∉ sub s i j.
Proof.
  rewrite !elem_of_sub. intros H1 H2 (n & ? & ? & ?).
  destruct (decide (n < m)); [apply H1|apply H2]; exists n;
    split_and!; try done; lia.
Qed.

(** If a block of the text occurs again further right and the bytes in
    front of the second occurrence, from the start of the first, are free
    of ['/'], then so are the bytes up to the end of the second. *)
Lemma shift_sep_free (text : list ascii) e m L :
  e ≤ m → (∀ n, n < L → text !! (m + n) = text !! (e + n)) →
  "/"%char ∉ sub text e m → "/"%char ∉ sub text (e + L) (m + L).
Proof.
  intros Hle Heq Hsep.
  destruct (decide (e = m)) as [->|Hne].
  { rewrite sub_diag. apply not_elem_of_nil. }
  assert (∀ j, e ≤ j → j < m + L → text !! j ≠ Some "/"%char) as H.
  { induction j as [j IH] using lt_wf_ind. intros Hj1 Hj2.
    destruct (decide (j < m)) as [Hlt|Hge].
    - intros Hj. apply Hsep, elem_of_sub. eauto.
    - replace j with (m + (j - m)) by lia. rewrite Heq by lia.
      apply IH; lia. }
  rewrite elem_of_sub. intros (n & ? & ? & ?). apply (H n); [lia|done..].
Qed.

Lemma terms_from_app pre rest :
  terms_from (length (render pre)) (pre ++ rest) = rest.
Proof.
  induction pre as [|t pre IH]; simpl.
  - by destruct rest.
  - rewrite render_cons, length_app.
    pose proof (render_term_length t).
    destruct (length (render_term t) + length (render pre)) as [|n] eqn:E;
      [lia|].
    rewrite <- E.
    by replace (length (render_term t) + length (render pre)
                - length (render_term t)) with (length (render pre)) by lia.
Qed.

Section Matchable.
Variable text : list ascii.

Lemma matchable_nil_inv i : matchable [] (drop i text) → length text ≤ i.
Proof.
  intros [ws Hc]. destruct (drop i text) as [|b s] eqn:E; [|inversion Hc].
  apply (f_equal length) in E. rewrite length_drop in E. simpl in E. lia.
Qed.

Lemma matchable_Lit_inv a ts i :
  matchable (Lit a :: ts) (drop i text) →
  text !! i = Some a ∧ matchable ts (drop (S i) text).
Proof.
  intros [ws Hc]. inversion Hc as [|a' ts' s ws' Hc' E1 E2 E3| | |]; subst.
  assert (text !! i = Some a) as Ha.
  { rewrite <- (Nat.add_0_r i), <- lookup_drop, <- E2. done. }
  split; [done|]. exists ws'.
  rewrite (drop_S _ _ _ Ha) in E2. by simplify_eq.
Qed.

Lemma matchable_wild_inv W ts i :
  wild W = true → matchable (W :: ts) (drop i text) →
  ∃ m, i ≤ m ∧ ("/"%char ∉ sub text i m) ∧ matchable ts (drop m text).
Proof.
  intros HW [ws Hc].
  assert (∃ w s ws', drop i text = w ++ s ∧ ("/"%char ∉ w) ∧ covers ts s ws')
    as (w & s & ws' & E & Hsep & Hc').
  { inversion Hc; subst; try done; eauto 10. }
  exists (i + length w). split_and!; [lia| |].
  - unfold sub. replace (i + length w - i) with (length w) by lia.
    by rewrite E, take_app_length.
  - exists ws'. by rewrite <- drop_drop, E, drop_app_length.
Qed.

Lemma matchable_literal_inv mid r m :
  literal_only mid = true → matchable (mid ++ r) (drop m text) →
  (∀ n t, mid !! n = Some t → ∃ a, t = Lit a ∧ text !! (m + n) = Some a) ∧
  matchable r (drop (m + length mid) text).
Proof.
  revert m. induction mid as [|t mid IH]; intros m Hl Hm; simpl.
  - split; [done|]. by rewrite Nat.add_0_r.
  - simpl in Hl. apply andb_prop in Hl as [Ht Hl].
    destruct t as [a| | |k]; try done.
    apply matchable_Lit_inv in Hm as [Ha Hm].
    destruct (IH (S m) Hl Hm) as [IH1 IH2]. split.
    + intros [|n] t Hn; simplify_eq/=.
      * exists a. by rewrite Nat.add_0_r.
      * replace (m + S n) with (S m + n) by lia. eauto.
    + by replace (m + S (length mid)) with (S m + length mid) by lia.
Qed.

Lemma spans_literal mid e j ws :
  literal_only mid = true → spans text mid e j ws →
  j = e + length mid ∧
  ∀ n t, mid !! n = Some t → ∃ a, t = Lit a ∧ text !! (e + n) = Some a.
Proof.
  intros Hl Hs. induction Hs as [i Hi|a ts i j ws Ha Hs IH| | |];
    simpl in Hl; try done; simpl.
  destruct (IH Hl) as [-> IH2]. split; [lia|].
  intros [|n] t Hn; simplify_eq/=.
  - exists a. by rewrite Nat.add_0_r.
  - replace (i + S n) with (S i + n) by lia. eauto.
Qed.

Lemma literal_blocks_agree mid e m :
  (∀ n t, mid !! n = Some t → ∃ a, t = Lit a ∧ text !! (e + n) = Some a) →
  (∀ n t, mid !! n = Some t → ∃ a, t = Lit a ∧ text !! (m + n) = Some a) →
  ∀ n, n < length mid → text !! (m + n) = text !! (e + n).
Proof.
  intros He Hm n Hn.
  destruct (lookup_lt_is_Some_2 mid n Hn) as [t Ht].
  destruct (He n t Ht) as (a & -> & ->).
  destruct (Hm n _ Ht) as (a' & [= <-] & ->). done.
Qed.
End Matchable.

Lemma rigid_literal_only pre W mid rest :
  anyfree (pre ++ W :: mid ++ rest) = true → forallb rigid mid = true →
  literal_only mid = true.
Proof.
  unfold anyfree, literal_only. rewrite forallb_app. simpl.
  rewrite forallb_app.
  intros [_ [_ [Hm _]%andb_prop]%andb_prop]%andb_prop Hr.
  rewrite forallb_forall in *. intros t Ht.
  specialize (Hm t Ht). specialize (Hr t Ht). by destruct t.
Qed.

Lemma anyfree_no_Any pre rest : anyfree (pre ++ Any :: rest) = false.
Proof.
  unfold anyfree. rewrite forallb_app. simpl. apply andb_false_r.
Qed.

Lemma isWild_head_byte W : wild W = true → isWild (head_byte W) = true.
Proof. by destruct W. Qed.

Section Completeness.
Variable text : list ascii.

(** [Comp] at a state whose retry point is the wildcard behind [pre]. *)
Lemma Comp_retry_point terms pre W r c :
  terms = pre ++ W :: r → nextPx c = length (render pre) → nextTx c ≠ 0 →
  Comp terms text c ↔
  ∃ m, (if decide (px c = nextPx c) then nextTx c else nextTx c - 1) ≤ m ∧
       ("/"%char ∉ sub text (if decide (px c = nextPx c) then nextTx c
                             else nextTx c - 1) m) ∧
       matchable r (drop m text).
Proof.
  intros -> Hnpx Hntx. unfold Comp.
  rewrite decide_False by done. by rewrite Hnpx, terms_from_app.
Qed.

Lemma Comp_enter terms pre W r c t :
  terms = pre ++ W :: r → nextPx c = length (render pre) →
  px c ≠ nextPx c → nextTx c = t + 1 →
  (∃ m, t ≤ m ∧ ("/"%char ∉ sub text t m) ∧ matchable r (drop m text)) →
  Comp terms text c.
Proof.
  intros Ht Hnpx Hpx Hntx Hm.
  rewrite (Comp_retry_point _ _ _ _ _ Ht Hnpx) by lia.
  rewrite decide_False by done. by replace (nextTx c - 1) with t by lia.
Qed.

(** The resume is taken when the wildcard at the retry point can grow. *)
Lemma retry_Wild pre W r c vars e b :
  wild W = true → nextPx c = length (render pre) → nextTx c = e + 1 →
  text !! e = Some b → b ≠ "/"%char →
  retry (render (pre ++ W :: r)) text c vars
  = Continue (Cursor (key c) (nx c) (vx c) (nextPx c) (nextTx c)
                     (nextPx c) (nextTx c)) vars.
Proof.
  intros HW Hnpx Hntx Hb Hne. unfold retry.
  pose proof (lookup_lt_Some _ _ _ Hb) as Hlt.
  assert ((nextTx c <=? length text) = true) as ->
    by (apply Nat.leb_le; lia).
  rewrite Hnpx, render_lookup_head, isWild_head_byte by done.
  rewrite Hntx, Nat.add_1_r, Hb.
  by apply Ascii.eqb_neq in Hne as ->.
Qed.

Lemma step_Comp terms c vars vars0 :
  wf terms = true → anyfree terms = true →
  Inv terms text vars0 c vars → Comp terms text c →
  match step (render terms) text c vars with
  | Continue c' _ => Comp terms text c'
  | Return b _ => b = true
  | Panic => True
  end.
Proof.
  intros Hwf Hany HI HC.
  destruct HI as [mid rest ws Ht Hrig Hsp Hpx Hntx Hnx Hvx Hvars
                 |pre W mid rest w0 e ws wsm pend Ht HW Hrig Hsp Hw0 Hsep
                      Hmid Hpx Hnpx Hntx Hbr Hvars
                 |pre W rest w0 ws pend Ht HW Hsp Hw0 Htx Hsep Hpx Hnpx
                      Hntx Hbr Hvars].
  - (* no wildcard met yet *)
    unfold Comp in HC. rewrite decide_True in HC by done.
    rewrite Hpx, Ht, terms_from_app in HC.
    destruct rest as [|t rest].
    { apply matchable_nil_inv in HC. rewrite step_end.
      2:{ rewrite Hpx, Ht, app_nil_r. done. }
      assert ((tx c <? length text) = false) as -> by (apply Nat.ltb_ge; lia).
      by destruct finalize. }
    pose proof Hwf as Hwt. rewrite Ht in Hwt. apply wf_elem in Hwt.
    assert (terms = (mid ++ [t]) ++ rest) as Ht'
      by (by rewrite Ht, <- app_assoc).
    destruct t as [a| | |k].
    + apply matchable_Lit_inv in HC as [Ha HC].
      rewrite Ht, step_term by done. rewrite <- Ht.
      unfold literal. rewrite Ha, Ascii.eqb_refl.
      destruct finalize; [|done].
      unfold Comp. simpl. rewrite decide_True by done.
      replace (px c + 1) with (length (render (mid ++ [Lit a])))
        by (rewrite length_render_snoc; simpl; lia).
      by rewrite Ht', terms_from_app, Nat.add_1_r.
    + by rewrite Ht, anyfree_no_Any in Hany.
    + rewrite Ht, step_Star by done. rewrite <- Ht.
      apply (Comp_enter _ _ _ _ _ (tx c) Ht); simpl; [done|lia|done|].
      by apply (matchable_wild_inv _ Star).
    + rewrite Ht, step_Named_first by (done || lia). rewrite <- Ht.
      apply (Comp_enter _ _ _ _ _ (tx c) Ht); simpl; [done|lia|done|].
      by apply (matchable_wild_inv _ (Named k)).
  - (* a wildcard at the retry point *)
    assert (terms = (pre ++ W :: mid) ++ rest) as Ht'
      by (by rewrite Ht, <- app_assoc).
    assert (nextPx c < px c) as Hpxlt.
    { rewrite Hpx, Hnpx, length_render_wild.
      pose proof (render_term_length W). lia. }
    apply (Comp_retry_point _ _ _ _ _ Ht Hnpx) in HC; [|lia].
    rewrite decide_False in HC by lia.
    replace (nextTx c - 1) with e in HC by lia.
    destruct HC as (m & Hem & Hsepm & Hm).
    assert (literal_only mid = true) as Hlit.
    { apply (rigid_literal_only pre W mid rest); [|done]. by rewrite <- Ht. }
    destruct (spans_literal _ _ _ _ _ Hlit Hmid) as [Htx He].
    destruct (matchable_literal_inv _ _ _ _ Hlit Hm) as [Hmm Hrest].
    pose proof (spans_le _ _ _ _ _ Hmid) as [_ Hlen].
    (* the resume, taken whenever the terms fail behind the wildcard *)
    assert (e < m → e < length text →
            match retry (render terms) text c vars with
            | Continue c' _ => Comp terms text c'
            | Return b _ => b = true
            | Panic => True
            end) as Hretry.
    { intros Hlt He'.
      destruct (lookup_lt_is_Some_2 text e He') as [b Hb].
      assert (b ≠ "/"%char) as Hne.
      { intros ->. apply Hsepm, elem_of_sub. exists e. by split_and!. }
      pose proof (retry_Wild pre W (mid ++ rest) c vars e b
                    HW Hnpx Hntx Hb Hne) as Hr.
      rewrite <- Ht in Hr. rewrite Hr.
      apply (Comp_retry_point _ _ _ _ _ Ht); simpl; [done|lia|].
      rewrite decide_True by done. exists m. split_and!; [lia| |done].
      eapply sep_free_mono; [| |done]; lia. }
    destruct rest as [|t rest].
    { rewrite step_end.
      2:{ rewrite Hpx, Ht, app_nil_r. done. }
      destruct (tx c <? length text) eqn:Hcmp; [|by destruct finalize].
      apply Nat.ltb_lt in Hcmp. apply matchable_nil_inv in Hrest.
      apply Hretry; lia. }
    pose proof Hwf as Hwt. rewrite Ht' in Hwt. apply wf_elem in Hwt.
    rewrite Hnpx in Hbr.
    pose proof (brace_behind _ _ mid _ _ Hbr) as [Hnx Hvx].
    destruct t as [a| | |k].
    + rewrite Ht', step_term by done. rewrite <- Ht'.
      pose proof (matchable_Lit_inv _ _ _ _ Hrest) as [Ham _].
      pose proof (lookup_lt_Some _ _ _ Ham) as Hamlt.
      unfold literal.
      destruct (text !! tx c) as [b|] eqn:Hb.
      * destruct (Ascii.eqb b a) eqn:Hba.
        -- destruct finalize; [|done].
           apply (Comp_retry_point _ _ _ _ _ Ht); simpl; [done|lia|].
           rewrite decide_False by lia.
           replace (nextTx c - 1) with e by lia. eauto.
        -- apply Hretry; [|lia].
           apply Ascii.eqb_neq in Hba.
           destruct (decide (m = e)) as [->|]; [|lia].
           rewrite <- Htx, Hb in Ham. congruence.
      * apply Hretry; [|lia].
        destruct (decide (m = e)) as [->|]; [|lia].
        rewrite <- Htx, Hb in Ham. congruence.
    + by rewrite Ht', anyfree_no_Any in Hany.
    + rewrite Ht', step_Star by done. rewrite <- Ht'.
      destruct (matchable_wild_inv _ Star _ _ eq_refl Hrest)
        as (m2 & Hm2 & Hsep2 & Hrest').
      apply (Comp_enter _ _ _ _ _ (tx c) Ht'); simpl; [done|lia|done|].
      exists m2. split_and!; [lia| |done].
      rewrite Htx. apply (sep_free_app _ _ (m + length mid)); [|done].
      apply shift_sep_free; [done| |done].
      by apply (literal_blocks_agree _ mid).
    + rewrite Ht', step_Named_first by (done || lia). rewrite <- Ht'.
      destruct (matchable_wild_inv _ (Named k) _ _ eq_refl Hrest)
        as (m2 & Hm2 & Hsep2 & Hrest').
      apply (Comp_enter _ _ _ _ _ (tx c) Ht'); simpl; [done|lia|done|].
      exists m2. split_and!; [lia| |done].
      rewrite Htx. apply (sep_free_app _ _ (m + length mid)); [|done].
      apply shift_sep_free; [done| |done].
      by apply (literal_blocks_agree _ mid).
  - (* just resumed: the wildcard is entered again *)
    pose proof Hwf as Hwt. rewrite Ht in Hwt. apply wf_elem in Hwt.
    assert (∃ m, tx c ≤ m ∧ ("/"%char ∉ sub text (tx c) m) ∧
                 matchable rest (drop m text)) as Hm.
    { destruct (decide (nextTx c = 0)) as [H0|H0].
      - unfold Comp in HC. rewrite decide_True in HC by done.
        rewrite Hpx, Ht, terms_from_app in HC.
        by apply (matchable_wild_inv _ W).
      - apply (Comp_retry_point _ _ _ _ _ Ht) in HC; [|lia|done].
        rewrite decide_True in HC by done. by rewrite Hntx in HC. }
    destruct W as [a| | |k]; try done.
    + rewrite Ht, step_Star by done. rewrite <- Ht.
      apply (Comp_enter _ _ _ _ _ (tx c) Ht); simpl; [done|lia|done|done].
    + destruct Hbr as (Hnx & Hk & _).
      rewrite Ht, step_Named_again by done. rewrite <- Ht.
      apply (Comp_enter _ _ _ _ _ (tx c) Ht); simpl; [done|lia|done|done].
Qed.

Lemma loop_complete terms n c vars vars0 b vars' :
  wf terms = true → anyfree terms = true →
  Inv terms text vars0 c vars → Comp terms text c →
  loop (render terms) text n c vars = Returned b vars' → b = true.
Proof.
  intros Hwf Hany. revert c vars.
  induction n as [|n IH]; intros c vars HI HC; simpl; [done|].
  pose proof (step_Comp _ _ _ _ Hwf Hany HI HC) as Hs.
  destruct (step (render terms) text c vars) as [c1 vars1|b1 vars1|] eqn:Hst;
    [|by intros [= <- _]|done].
  apply IH; [by eapply Inv_step|done].
Qed.
End Completeness.

Lemma terms_from_0 ts : terms_from 0 ts = ts.
Proof. by destruct ts. Qed.

Lemma bytes_nil_inv s : bytes s = [] → s = "".
Proof. by destruct s. Qed.

Lemma bytes_inj s1 s2 : bytes s1 = bytes s2 → s1 = s2.
Proof. intros H. by rewrite <- (str_bytes s1), H, str_bytes. Qed.

Lemma Match_finds terms text vars :
  wf terms = true → anyfree terms = true → matchable terms (bytes text) →
  ∃ vars', Match (pattern_of terms) text vars = Returned true vars'.
Proof.
  intros Hwf Hany Hm. destruct (decide (terms = [])) as [->|Hne].
  { destruct Hm as [ws Hc].
    destruct (bytes text) as [|b s] eqn:Hs; [|inversion Hc].
    apply bytes_nil_inv in Hs as ->. by exists vars. }
  destruct (Match_Returned terms text vars Hwf Hne) as (b & vars' & HM).
  exists vars'. rewrite HM. f_equal.
  unfold Match, pattern_of in HM. rewrite bytes_str in HM.
  eapply (loop_complete (bytes text) terms _ init vars vars); try done.
  - apply Inv_init.
  - unfold Comp. simpl. by rewrite terms_from_0.
Qed.

Lemma Match_misses terms text vars :
  wf terms = true → terms ≠ [] → ¬ matchable terms (bytes text) →
  Match (pattern_of terms) text vars = Returned false [].
Proof.
  intros Hwf Hne Hm.
  destruct (Match_Returned terms text vars Hwf Hne) as ([] & vars' & HM).
  - destruct Hm. destruct (Match_sound _ _ _ _ Hwf HM) as (ws & Hc & _).
    by exists ws.
  - rewrite HM. f_equal. by apply loop_false in HM.
Qed.

(** X9.  For a non-empty pattern without ['?'], [Match] returns true
    exactly when the whole text splits into spans that match the terms of
    the pattern in order, the spans of [*] and [{name}] free of ['/'];
    otherwise it returns false with [vars] empty. *)
Theorem Match_decides terms text vars :
  wf terms = true → anyfree terms = true → terms ≠ [] →
  (matchable terms (bytes text) →
   ∃ vars', Match (pattern_of terms) text vars = Returned true vars') ∧
  (¬ matchable terms (bytes text) →
   Match (pattern_of terms) text vars = Returned false []).
Proof.
  intros Hwf Hany Hne. split.
  - by apply Match_finds.
  - by apply Match_misses.
Qed.

Lemma Match_decides_witness :
  wf [Lit "a"; Star; Lit "b"; Star; Lit "c"] = true ∧
  anyfree [Lit "a"; Star; Lit "b"; Star; Lit "c"] = true ∧
  [Lit "a"; Star; Lit "b"; Star; Lit "c"] ≠ [] ∧
  matchable [Lit "a"; Star; Lit "b"; Star; Lit "c"] (bytes "abxbc") ∧
  ∃ vars',
    Match (pattern_of [Lit "a"; Star; Lit "b"; Star; Lit "c"]) "abxbc" []
    = Returned true vars'.
Proof.
  assert (matchable [Lit "a"; Star; Lit "b"; Star; Lit "c"] (bytes "abxbc"))
    as Hm.
  { exists [bytes "a"; bytes "bx"; bytes "b"; []; bytes "c"].
    apply covers_Lit. apply (covers_Star _ (bytes "bx") (bytes "bc")).
    { intros H. vm_compute in H. by repeat (apply elem_of_cons in H as [H|H];
        [discriminate|]); apply elem_of_nil in H. }
    apply covers_Lit. apply (covers_Star _ [] (bytes "c")).
    { apply not_elem_of_nil. }
    apply covers_Lit. apply covers_nil. }
  split; [reflexivity|]. split; [reflexivity|]. split; [discriminate|].
  split; [exact Hm|].
  exact (proj1 (Match_decides [Lit "a"; Star; Lit "b"; Star; Lit "c"]
                  "abxbc" [] eq_refl eq_refl ltac:(discriminate)) Hm).
Defined.

Lemma literal_only_anyfree ts : literal_only ts = true → anyfree ts = true.
Proof.
  unfold literal_only, anyfree. rewrite !forallb_forall.
  intros H t Ht. specialize (H t Ht). by destruct t.
Qed.

Lemma covers_literal ts s ws :
  literal_only ts = true → covers ts s ws → s = render ts.
Proof.
  intros Hl Hc. induction Hc; simpl in Hl; try done.
  rewrite render_cons. simpl. f_equal. auto.
Qed.

Lemma literal_matchable ts : literal_only ts = true → matchable ts (render ts).
Proof.
  induction ts as [|[a| | |k] ts IH]; simpl; try done.
  - intros _. exists []. constructor.
  - intros [ws Hc]%IH. exists ([a] :: ws). rewrite render_cons. simpl.
    by constructor.
Qed.

(** X10.  A non-empty pattern of literal characters matches exactly the
    text equal to it. *)
Theorem Match_literal_pattern terms text vars :
  wf terms = true → literal_only terms = true → terms ≠ [] →
  verdict (Match (pattern_of terms) text vars)
  = Some (bool_decide (text = pattern_of terms)).
Proof.
  intros Hwf Hl Hne. pose proof (literal_only_anyfree _ Hl) as Hany.
  destruct (decide (text = pattern_of terms)) as [->|Hneq].
  - rewrite bool_decide_eq_true_2 by done.
    destruct (Match_finds terms (pattern_of terms) vars Hwf Hany)
      as [vars' ->]; [|done].
    unfold pattern_of. rewrite bytes_str. by apply literal_matchable.
  - rewrite bool_decide_eq_false_2 by done.
    rewrite (Match_misses terms text vars); [done..|].
    intros [ws Hc]. apply covers_literal in Hc; [|done].
    apply Hneq, bytes_inj. unfold pattern_of. by rewrite bytes_str.
Qed.

Lemma Match_literal_pattern_witness :
  wf [Lit "a"; Lit "}"; Lit "c"] = true ∧
  literal_only [Lit "a"; Lit "}"; Lit "c"] = true ∧
  [Lit "a"; Lit "}"; Lit "c"] ≠ [] ∧
  verdict (Match (pattern_of [Lit "a"; Lit "}"; Lit "c"]) "a}d" [])
  = Some (bool_decide ("a}d" = pattern_of [Lit "a"; Lit "}"; Lit "c"])).
Proof.
  split; [reflexivity|]. split; [reflexivity|]. split; [discriminate|].
  apply (Match_literal_pattern [Lit "a"; Lit "}"; Lit "c"] "a}d" []);
    [reflexivity|reflexivity|discriminate].
Defined.

Lemma covers_single W s ws :
  wild W = true → covers [W] s ws → ("/"%char ∉ s) ∧ ws = [s].
Proof.
  intros HW Hc.
  assert (∃ w s' ws', s = w ++ s' ∧ ws = w :: ws' ∧ ("/"%char ∉ w) ∧
                      covers [] s' ws') as (w & s' & ws' & -> & -> & Hw & Hc').
  { inversion Hc; subst; try done; eauto 10. }
  inversion Hc'; subst. by rewrite app_nil_r.
Qed.

Lemma single_matchable W s :
  wild W = true → "/"%char ∉ s → matchable [W] s.
Proof.
  intros HW Hs. exists [s]. rewrite <- (app_nil_r s) at 1.
  destruct W; try done; constructor; (done || constructor).
Qed.

(** X11.  The pattern [*] matches exactly the texts without ['/'] and
    leaves [vars] as it was; a pattern [{name}] matches the same texts and
    binds the name to the whole text. *)
Theorem Match_single_wildcard k text vars :
  wf_term (Named k) = true →
  Match "*" text vars
  = (if bool_decide ("/"%char ∈ bytes text) then Returned false []
     else Returned true vars) ∧
  Match (pattern_of [Named k]) text vars
  = (if bool_decide ("/"%char ∈ bytes text) then Returned false []
     else Returned true (Vars_Set vars k text)).
Proof.
  intros Hk.
  assert (∀ W, wild W = true → wf [W] = true → capturing [W] = true →
            Match (pattern_of [W]) text vars
            = if bool_decide ("/"%char ∈ bytes text) then Returned false []
              else Returned true (bind vars (captures [W] [bytes text])))
    as H.
  { intros W HW Hwf Hcap. case_bool_decide as Hs.
    - apply Match_misses; [done..|].
      intros [ws Hc]. by apply covers_single in Hc as [? _].
    - destruct (Match_finds [W] text vars Hwf) as [vars' HM].
      { by destruct W. }
      { by apply single_matchable. }
      rewrite HM. f_equal.
      destruct (Match_sound _ _ _ _ Hwf HM) as (ws & Hc & Hv).
      apply covers_single in Hc as [_ ->]; [|done]. auto. }
  split.
  - apply (H Star); done.
  - rewrite (H (Named k)); [|done| |done].
    + simpl. unfold bind. simpl. by rewrite str_bytes.
    + unfold wf. cbn [forallb]. by rewrite Hk.
Qed.

Lemma Match_single_wildcard_witness :
  wf_term (Named "id") = true ∧
  Match (pattern_of [Named "id"]) "42" [("x", "y")]
  = Returned true [("x", "y"); ("id", "42")] ∧
  Match "*" "a/b" [("x", "y")] = Returned false [].
Proof.
  destruct (Match_single_wildcard "id" "42" [("x", "y")] eq_refl) as [_ H2].
  destruct (Match_single_wildcard "id" "a/b" [("x", "y")] eq_refl) as [H1 _].
  split; [reflexivity|]. split; [exact H2|exact H1].
Defined.

Lemma elem_of_Vars_Set vars k v x :
  x ∈ Vars_Set vars k v → x ∈ vars ∨ x = (k, v).
Proof.
  induction vars as [|[k0 v0] vars IH]; simpl.
  - rewrite list_elem_of_singleton. auto.
  - destruct (String.eqb k0 k); rewrite !elem_of_cons; intuition.
Qed.

Lemma elem_of_bind vars caps x : x ∈ bind vars caps → x ∈ vars ∨ x ∈ caps.
Proof.
  revert vars. induction caps as [|[k v] caps IH]; intros vars; simpl.
  - auto.
  - intros [[?| ->]%elem_of_Vars_Set|?]%IH; rewrite elem_of_cons; auto.
Qed.

Lemma captures_sep_free ts s ws k v :
  covers ts s ws → (k, v) ∈ captures ts ws →
  ("/"%char ∉ bytes v) ∧ ∃ l r, s = l ++ bytes v ++ r.
Proof.
  intros Hc. induction Hc as [|a ts s ws Hc IH|b ts s ws Hb Hc IH
                              |ts w s ws Hw Hc IH|k' ts w s ws Hw Hc IH];
    simpl.
  - by intros ?%elem_of_nil.
  - intros (? & l & r & ->)%IH. split; [done|]. by exists (a :: l), r.
  - intros (? & l & r & Hs)%IH. split; [done|].
    exists (take (DecodeRuneInString_width (b :: s)) (b :: s) ++ l), r.
    rewrite <- app_assoc, <- Hs. by rewrite take_drop.
  - intros (? & l & r & ->)%IH. split; [done|]. exists (w ++ l), r.
    by rewrite <- app_assoc.
  - rewrite elem_of_cons. intros [[= -> ->]|(? & l & r & ->)%IH].
    + unfold str. rewrite bytes_str. split; [done|]. by exists [], s.
    + split; [done|]. exists (w ++ l), r. by rewrite <- app_assoc.
Qed.

(** X12.  After a successful match that started from an empty list, on a
    pattern whose captures are all recorded, every value in [vars] is a
    piece of the text and contains no ['/']. *)
Theorem Match_values_in_segment terms text vars' k v :
  wf terms = true → capturing terms = true →
  Match (pattern_of terms) text [] = Returned true vars' →
  (k, v) ∈ vars' →
  ("/"%char ∉ bytes v) ∧ ∃ l r, bytes text = l ++ bytes v ++ r.
Proof.
  intros Hwf Hcap HM Hin.
  destruct (Match_sound _ _ _ _ Hwf HM) as (ws & Hc & Hv).
  rewrite (Hv Hcap) in Hin.
  apply elem_of_bind in Hin as [Hin%elem_of_nil|Hin]; [done|].
  by eapply captures_sep_free.
Qed.

Lemma Match_values_in_segment_witness :
  wf [Lit "/"; Named "id"; Lit "/"; Star] = true ∧
  capturing [Lit "/"; Named "id"; Lit "/"; Star] = true ∧
  Match (pattern_of [Lit "/"; Named "id"; Lit "/"; Star]) "/42/x" []
  = Returned true [("id", "42")] ∧
  ("id", "42") ∈ [("id", "42")] ∧
  ("/"%char ∉ bytes "42") ∧ ∃ l r, bytes "/42/x" = l ++ bytes "42" ++ r.
Proof.
  assert (("id", "42") ∈ [("id", "42")]) as Hin by left.
  split; [reflexivity|]. split; [reflexivity|].
  split; [vm_compute; reflexivity|]. split; [exact Hin|].
  apply (Match_values_in_segment [Lit "/"; Named "id"; Lit "/"; Star]
           "/42/x" [("id", "42")] "id" "42");
    [reflexivity|reflexivity|vm_compute; reflexivity|exact Hin].
Defined.

(** * A named term at the end of the pattern *)

Lemma Vars_Set_elem vars k v : (k, v) ∈ Vars_Set vars k v.
Proof.
  induction vars as [|[k0 v0] vars IH]; simpl; [left|].
  destruct (String.eqb k0 k); [left|by right].
Qed.

Lemma anyfree_app ts1 ts2 :
  anyfree (ts1 ++ ts2) = anyfree ts1 && anyfree ts2.
Proof. apply forallb_app. Qed.

Lemma literal_only_rigid ts : literal_only ts = true → forallb rigid ts = true.
Proof.
  unfold literal_only. rewrite !forallb_forall.
  intros H t Ht. specialize (H t Ht). by destruct t.
Qed.

(** Matches of patterns without ['?'] compose. *)
Lemma covers_app ts1 s1 ws1 ts2 s2 ws2 :
  anyfree ts1 = true → covers ts1 s1 ws1 → covers ts2 s2 ws2 →
  covers (ts1 ++ ts2) (s1 ++ s2) (ws1 ++ ws2).
Proof.
  intros Hany Hc1 Hc2.
  induction Hc1 as [|a ts s ws Hc IH|b ts s ws Hb Hc IH
                    |ts w s ws Hw Hc IH|k ts w s ws Hw Hc IH];
    simpl in *; try done.
  - constructor. auto.
  - rewrite <- app_assoc. constructor; auto.
  - rewrite <- app_assoc. constructor; auto.
Qed.

(** Literal terms at the head of a pattern take their own bytes. *)
Lemma covers_literal_prefix pre r s ws :
  literal_only pre = true → covers (pre ++ r) s ws →
  ∃ s' ws', s = render pre ++ s' ∧ ws = (render_term <$> pre) ++ ws' ∧
            covers r s' ws'.
Proof.
  revert s ws. induction pre as [|[a| | |k] pre IH]; intros s ws Hl Hc;
    simpl in Hl; try done.
  - by exists s, ws.
  - inversion Hc as [|? ? s0 ws0 Hc0| | |]; subst.
    destruct (IH _ _ Hl Hc0) as (s' & ws' & -> & -> & Hr).
    exists s', ws'. by rewrite render_cons.
Qed.

(** At [return true] a named term that ends the pattern is the wildcard at
    the retry point, no term behind it, and the finalisation binds its name
    to its span. *)
Lemma Inv_return_Named text vars0 pre k c vars vars' :
  Inv (pre ++ [Named k]) text vars0 c vars →
  step (render (pre ++ [Named k])) text c vars = Return true vars' →
  ∃ ws w, spans text (pre ++ [Named k]) 0 (length text) (ws ++ [w]) ∧
          length ws = length pre ∧
          vars' = Vars_Set vars k (str w).
Proof.
  intros HI (Hpx & Htx & Hf)%step_Return_true.
  destruct HI as [mid rest ws Ht Hrig Hsp Hpx' _ _ _ _
                 |pre' W mid rest w0 e ws wsm pend Ht HW Hrig Hsp Hw0 Hsep
                      Hmid Hpx' Hnpx Hntx Hbr _
                 |pre' W rest w0 ws pend Ht _ _ _ _ _ Hpx' _ _ _ _].
  - assert (rest = []) as ->.
    { apply render_nil_inv. rewrite Ht, render_app, length_app in Hpx. lia. }
    rewrite app_nil_r in Ht. subst mid.
    pose proof (last_forallb_rigid _ (Named k) Hrig) as Hx.
    rewrite last_snoc in Hx. by specialize (Hx eq_refl).
  - assert (rest = []) as ->.
    { apply render_nil_inv.
      assert (pre ++ [Named k] = (pre' ++ W :: mid) ++ rest) as E
        by (by rewrite Ht, <- app_assoc).
      rewrite E, render_app, length_app in Hpx. lia. }
    rewrite app_nil_r in Ht.
    assert (mid = []) as ->.
    { destruct mid as [|t mid _] using rev_ind; [done|].
      replace (pre' ++ W :: mid ++ [t]) with ((pre' ++ W :: mid) ++ [t]) in Ht
        by (by rewrite <- app_assoc).
      apply app_inj_tail in Ht as [_ <-].
      pose proof (last_forallb_rigid _ (Named k) Hrig) as Hx.
      rewrite last_snoc in Hx. by specialize (Hx eq_refl). }
    apply (app_inj_tail pre pre') in Ht as [-> <-].
    pose proof (spans_le _ _ _ _ _ Hmid) as [_ Hle].
    assert (tx c = length text) as Hlen by lia.
    pose proof (spans_wild text pre' (Named k) [] w0 e (tx c) ws wsm
                           HW Hsp Hw0 Hsep Hmid) as Hall.
    apply spans_nil_inv in Hmid as [Hte ->].
    destruct Hbr as (_ & Hk & Hvx).
    pose proof (finalize_spec text (pre' ++ [Named k]) [] c vars vars') as Hfin.
    rewrite app_nil_r, last_snoc in Hfin.
    destruct (Hfin Hpx' Hf) as (v & [-> _]%slice_Some & ->).
    exists ws, (sub text w0 e). split_and!.
    + by rewrite <- Hlen.
    + by eapply spans_length.
    + by rewrite Hk, Hvx, Hte.
  - pose proof (render_lt pre' W rest) as Hlt. rewrite <- Ht in Hlt. lia.
Qed.

Lemma loop_Named text vars0 pre k n c vars vars' :
  wf (pre ++ [Named k]) = true → Inv (pre ++ [Named k]) text vars0 c vars →
  loop (render (pre ++ [Named k])) text n c vars = Returned true vars' →
  ∃ ws w vars1, spans text (pre ++ [Named k]) 0 (length text) (ws ++ [w]) ∧
                length ws = length pre ∧
                vars' = Vars_Set vars1 k (str w).
Proof.
  intros Hwf. revert c vars.
  induction n as [|n IH]; intros c vars HI; simpl; [done|].
  destruct (step (render (pre ++ [Named k])) text c vars)
    as [c1 vars1|b vars1|] eqn:Hs; [|intros [= -> ->]|done].
  - apply IH. by eapply Inv_step.
  - destruct (Inv_return_Named _ _ _ _ _ _ _ HI Hs) as (ws & w & ? & ? & ?).
    by exists ws, w, vars.
Qed.

(** A successful call on a pattern that ends with a named term ends with
    [vars.Set] of its name to its span. *)
Lemma Match_last_Named pre k text vars vars' :
  wf (pre ++ [Named k]) = true →
  Match (pattern_of (pre ++ [Named k])) text vars = Returned true vars' →
  ∃ ws w vars1, covers (pre ++ [Named k]) (bytes text) (ws ++ [w]) ∧
                length ws = length pre ∧
                vars' = Vars_Set vars1 k (str w).
Proof.
  unfold Match, pattern_of. rewrite bytes_str. intros Hwf Hm.
  eapply loop_Named in Hm as (ws & w & vars1 & Hsp & Hl & Hv);
    [|done|apply Inv_init].
  exists ws, w, vars1. split; [|done]. by apply spans_covers in Hsp.
Qed.

(** A text that the terms before a last named term match is matched with
    it. *)
Lemma Match_prefix_then_Named pre k text vars :
  wf (pre ++ [Named k]) = true → anyfree pre = true →
  matchable pre (bytes text) →
  ∃ vars', Match (pattern_of (pre ++ [Named k])) text vars
           = Returned true vars'.
Proof.
  intros Hwf Hany [ws Hc]. apply Match_finds; [done| |].
  - by rewrite anyfree_app, Hany.
  - exists (ws ++ [[]]). rewrite <- (app_nil_r (bytes text)).
    apply covers_app; [done..|].
    apply (covers_Named k [] [] [] []); [by intros ?%elem_of_nil|constructor].
Qed.

(** Behind literal terms only, on the text they spell, the span of the named
    term is empty. *)
Lemma covers_literal_then_Named pre k ws w :
  literal_only pre = true →
  covers (pre ++ [Named k]) (render pre) (ws ++ [w]) → w = [].
Proof.
  intros Hl (s' & ws' & Hs & Hws & Hc)%covers_literal_prefix; [|done].
  rewrite <- (app_nil_r (render pre)) in Hs at 1.
  apply app_inv_head in Hs as <-.
  apply covers_single in Hc as [_ ->]; [|done].
  by apply app_inj_tail in Hws as [_ ->].
Qed.

(** C7.  A named term that ends the pattern is bound by the finalisation
    after the loop, an empty span as any other.  For every pattern of the
    grammar that ends with a named term [{k}]: when [Match] returns true,
    there is a match of the whole text in which the last span [w] is that of
    [{k}], the pair of [k] and [w] is in [vars], and [Get] returns [w] for
    [k]; with [w] empty this is the pair of [k] and the empty string.  The
    empty span does not make the call fail: on a pattern without [?], a
    text that the terms before [{k}] match on their own is matched.  When
    those terms are literal characters and the text is the one they spell,
    the span of [{k}] is empty: the call returns true, [k] is bound to the
    empty string, and when every capture is recorded and [k] was not bound
    before, [vars] is the list it was with that pair added at its end.
    [a{1}] on [a] is the instance with one literal: whatever [vars] held,
    the call returns true with the pair of [1] and the empty string in
    [vars]; from the empty list the result is that one pair, a value bound
    to [1] before is overwritten in place, and [vars] is untouched until the
    turn that leaves the loop writes the pair. *)
Theorem Match_zero_length_capture :
  (∀ pre k text vars vars',
     wf (pre ++ [Named k]) = true →
     Match (pattern_of (pre ++ [Named k])) text vars = Returned true vars' →
     ∃ ws w, covers (pre ++ [Named k]) (bytes text) (ws ++ [w]) ∧
             length ws = length pre ∧
             (k, str w) ∈ vars' ∧ Vars_Get vars' k = str w) ∧
  (∀ pre k text vars,
     wf (pre ++ [Named k]) = true → anyfree pre = true →
     matchable pre (bytes text) →
     ∃ vars', Match (pattern_of (pre ++ [Named k])) text vars
              = Returned true vars') ∧
  (∀ pre k vars,
     wf (pre ++ [Named k]) = true → literal_only pre = true →
     ∃ vars', Match (pattern_of (pre ++ [Named k])) (pattern_of pre) vars
              = Returned true vars' ∧
              (k, "") ∈ vars' ∧ Vars_Get vars' k = "" ∧
              (capturing (pre ++ [Named k]) = true → k ∉ vars.*1 →
               vars' = vars ++ [(k, "")])) ∧
  (∀ vars, ∃ vars', Match "a{1}" "a" vars = Returned true vars' ∧
                    ("1", "") ∈ vars' ∧ Vars_Get vars' "1" = "") ∧
  Match "a{1}" "a" [] = Returned true [("1", "")] ∧
  Match "a{1}" "a" [("1", "x"); ("2", "y")]
  = Returned true [("1", ""); ("2", "y")] ∧
  step (bytes "a{1}") (bytes "a") init []
  = Continue (Cursor "" 0 0 1 1 0 0) [] ∧
  step (bytes "a{1}") (bytes "a") (Cursor "" 0 0 1 1 0 0) []
  = Continue (Cursor "1" 3 1 4 1 1 2) [] ∧
  step (bytes "a{1}") (bytes "a") (Cursor "1" 3 1 4 1 1 2) []
  = Return true [("1", "")].
Proof.
  split_and!; [| | | |by vm_compute..].
  4: { intros vars. exists (Vars_Set vars "1" "").
       split_and!; [done|apply Vars_Set_elem|apply Vars_Get_Set]. }
  - intros pre k text vars vars' Hwf HM.
    destruct (Match_last_Named _ _ _ _ _ Hwf HM)
      as (ws & w & vars1 & Hc & Hl & ->).
    exists ws, w. split_and!; [done..|apply Vars_Set_elem|apply Vars_Get_Set].
  - apply Match_prefix_then_Named.
  - intros pre k vars Hwf Hl.
    destruct (Match_prefix_then_Named pre k (pattern_of pre) vars Hwf)
      as [vars' HM].
    { by apply literal_only_anyfree. }
    { unfold pattern_of. rewrite bytes_str. by apply literal_matchable. }
    exists vars'. split; [done|].
    destruct (Match_last_Named _ _ _ _ _ Hwf HM)
      as (ws & w & vars1 & Hc & _ & Hv).
    unfold pattern_of in Hc at 1. rewrite bytes_str in Hc.
    apply covers_literal_then_Named in Hc as ->; [|done].
    split_and!.
    + rewrite Hv. apply Vars_Set_elem.
    + rewrite Hv. apply Vars_Get_Set.
    + intros Hcap Hk.
      destruct (Match_sound _ _ _ _ Hwf HM) as (ws' & Hc' & Hb).
      destruct ws' as [|w' ws' _] using rev_ind.
      { apply covers_spans in Hc' as (_ & Hlen & _).
        rewrite length_app in Hlen. simpl in Hlen. lia. }
      pose proof Hc' as (_ & Hlen & _)%covers_spans.
      rewrite !length_app in Hlen. simpl in Hlen.
      unfold pattern_of in Hc' at 1. rewrite bytes_str in Hc'.
      apply covers_literal_then_Named in Hc' as ->; [|done].
      rewrite (Hb Hcap), captures_app by lia.
      rewrite captures_rigid by by apply literal_only_rigid.
      simpl. by apply Vars_Set_fresh.
Qed.

Lemma Match_zero_length_capture_witness :
  wf ([Lit "/"; Lit "u"; Lit "/"] ++ [Named "id"]) = true ∧
  literal_only [Lit "/"; Lit "u"; Lit "/"] = true ∧
  capturing ([Lit "/"; Lit "u"; Lit "/"] ++ [Named "id"]) = true ∧
  ("id" ∉ [("x", "y")].*1) ∧
  Match (pattern_of ([Lit "/"; Lit "u"; Lit "/"] ++ [Named "id"]))
        (pattern_of [Lit "/"; Lit "u"; Lit "/"]) [("x", "y")]
  = Returned true ([("x", "y")] ++ [("id", "")]).
Proof.
  assert ("id" ∉ [("x", "y")].*1) as Hk.
  { simpl. by intros [=]%list_elem_of_singleton. }
  split; [reflexivity|]. split; [reflexivity|]. split; [reflexivity|].
  split; [exact Hk|].
  destruct (proj1 (proj2 (proj2 Match_zero_length_capture))
                  [Lit "/"; Lit "u"; Lit "/"] "id" [("x", "y")]
                  eq_refl eq_refl)
    as (vars' & HM & _ & _ & Hv).
  rewrite HM. f_equal. exact (Hv eq_refl Hk).
Defined.
